(** * Martian proxy: modifier groups, connection metrics and the proxy engine

    A shallow embedding of the parts of the proxy that its specification
    makes quantified statements about:

    - [fifo]: [group.ModifyRequest], [group.ModifyResponse] and
      [Group.ToImmutable] of [fifo/fifo_group.go];
    - [connmetric]: [InstrumentedConn] ([Read], [Write], [Close], [close]);
    - [proxy]: [isCloseable], [Proxy.roundTrip], [Proxy.handle] and
      [Proxy.handleLoop] of [proxy.go].

    Go's [error] interface is embedded as the inductive type [error] of the
    non-nil error values the code distinguishes; a nil-able error is an
    [option error]. *)

From Stdlib Require Import String Ascii ZArith Bool Arith Lia List.
Import ListNotations.
Open Scope list_scope.

Set Implicit Arguments.
Set Warnings "-register-all".

(** ** Error values *)

(** The dynamic error values the code tells apart: the sentinels compared by
    identity ([io.EOF], [io.ErrClosedPipe], [io.ErrUnexpectedEOF], [errClose]),
    values implementing [net.Error] (with the answer of [Timeout()]), the
    traffic-shaping [*trafficshape.ErrForceClose], [*martian.MultiError], and
    any other error, known only by its [Error()] text. *)
Inductive error : Type :=
| io_EOF
| io_ErrClosedPipe
| io_ErrUnexpectedEOF
| errClose
| NetError (msg : string) (timeout : bool)
| ErrForceClose (msg : string)
| ErrorString (msg : string)
| MultiError (errs : list error).

(** Modelled from the spec: [martian.MultiError] (multierror.go is not among
    the sources). "Aggregated: multi-error container [...]; empty() ->
    success, otherwise a container whose rendering joins member errors."
    The container is the list of its member errors. *)
Definition NewMultiError : list error := [].

(** Modelled from the spec: [MultiError.Add], "collect errors into a
    multi-error container": the error becomes the last member. *)
Definition Add (merr : list error) (err : error) : list error := merr ++ [err].

(** Modelled from the spec: [MultiError.Empty]. *)
Definition Empty (merr : list error) : bool :=
  match merr with [] => true | _ :: _ => false end.

(** The primitive errors inside an error, multi-error containers opened. *)
Fixpoint leaves (e : error) : list error :=
  match e with
  | MultiError errs =>
      (fix go (l : list error) : list error :=
         match l with
         | [] => []
         | x :: r => leaves x ++ go r
         end) errs
  | _ => [e]
  end.

(** Two error outcomes are equivalent when both are nil, or both are errors
    carrying the same primitive errors in the same order. *)
Definition err_equiv (a b : option error) : Prop :=
  match a, b with
  | None, None => True
  | Some x, Some y => leaves x = leaves y
  | _, _ => False
  end.

(** The same for the errors collected from a run of entries: both runs
    collected none, or both collected some, with the same primitive errors
    in the same order. *)
Definition errs_equiv (a b : list error) : Prop :=
  (a = [] <-> b = []) /\ flat_map leaves a = flat_map leaves b.

(** Two runs of a modifier have the same observable behaviour: the
    message is left in the same state and the error outcomes are
    equivalent. *)
Definition outcome_equiv {St : Type} (a b : St * option error) : Prop :=
  fst a = fst b /\ err_equiv (snd a) (snd b).

Definition opt_list (r : option error) : list error :=
  match r with Some e => [e] | None => [] end.

(** ** fifo/fifo_group.go *)
Module fifo.

Section Loop.
(** [St] is what a modifier can read and write through the message it is
    handed; [M] is the type of the entries, [run] invokes one. *)
Variables (St M : Type).
Variable run : M -> St -> St * option error.
Variable aggregateErrors : bool.

(** The body of [group.ModifyRequest] and of [group.ModifyResponse]:
    [merr] is the nil-able [*martian.MultiError]. *)
Fixpoint modify_loop (mods : list M) (merr : option (list error)) (msg : St)
  : St * option error :=
  match mods with
  | [] =>
      match merr with
      | None => (msg, None)
      | Some errs => if Empty errs then (msg, None)
                     else (msg, Some (MultiError errs))
      end
  | m :: rest =>
      let (msg', r) := run m msg in
      match r with
      | Some err =>
          if aggregateErrors then
            let merr' := match merr with
                         | None => NewMultiError
                         | Some errs => errs
                         end in
            modify_loop rest (Some (Add merr' err)) msg'
          else (msg', Some err)
      | None => modify_loop rest merr msg'
      end
  end.

(** Every entry invoked once, in insertion order, each on the message as
    its predecessor left it; the results are listed entry by entry. *)
Fixpoint run_in_order (mods : list M) (msg : St) : St * list (option error) :=
  match mods with
  | [] => (msg, [])
  | m :: rest =>
      let (msg', r) := run m msg in
      let (msg'', rs) := run_in_order rest msg' in
      (msg'', r :: rs)
  end.

(** The non-nil errors among the results, in the same order. *)
Fixpoint errors_of (rs : list (option error)) : list error :=
  match rs with
  | [] => []
  | Some e :: rest => e :: errors_of rest
  | None :: rest => errors_of rest
  end.

(** Invoking entry number [i] leaves [i] in a call log kept beside the
    message. *)
Definition logged (im : nat * M) (s : St * list nat)
  : (St * list nat) * option error :=
  let (msg', r) := run (snd im) (fst s) in
  ((msg', snd s ++ [fst im]), r).

Definition indexed_from (i : nat) (mods : list M) : list (nat * M) :=
  combine (seq i (length mods)) mods.
End Loop.

(** The positions of the entries that the loop invokes on [msg], in the
    order of the invocations. *)
Definition executed {St M : Type} (run : M -> St -> St * option error)
  (agg : bool) (mods : list M) (msg : St) : list nat :=
  snd (fst (modify_loop (logged run) agg (indexed_from 0 mods) None (msg, []))).


(** What [merr] holds, and what the loop returns for the errors collected. *)
Definition merr_list (merr : option (list error)) : list error :=
  match merr with None => [] | Some errs => errs end.

Definition merr_result (errs : list error) : option error :=
  match errs with [] => None | _ :: _ => Some (MultiError errs) end.

Section Groups.
(** [Request] and [Response] stand for the [*http.Request] and
    [*http.Response] a modifier mutates, together with whatever else it
    reaches. *)
Variables (Request Response : Type).

(** The entries of a group: a [*Group], an [*ImmutableGroup], or any other
    implementation of [martian.RequestModifier] /
    [martian.ResponseModifier]. *)
Inductive Modifier : Type :=
| Func (ModifyRequest : Request -> Request * option error)
       (ModifyResponse : Response -> Response * option error)
| GroupPtr (g : group)
| ImmutableGroupPtr (g : group)
with group : Type :=
| mk_group (reqmods : list Modifier) (resmods : list Modifier)
           (aggregateErrors : bool).

Definition reqmods (g : group) : list Modifier :=
  match g with mk_group rq _ _ => rq end.
Definition resmods (g : group) : list Modifier :=
  match g with mk_group _ rs _ => rs end.
Definition aggregateErrors (g : group) : bool :=
  match g with mk_group _ _ a => a end.

(** [reqmod.ModifyRequest(req)] by dynamic dispatch, and
    [group.ModifyRequest]. [Group.ModifyRequest] takes the read lock and
    calls [group.ModifyRequest]. *)
Fixpoint Modifier_ModifyRequest (m : Modifier) (req : Request) {struct m}
  : Request * option error :=
  match m with
  | Func f _ => f req
  | GroupPtr g => group_ModifyRequest g req
  | ImmutableGroupPtr g => group_ModifyRequest g req
  end
with group_ModifyRequest (g : group) (req : Request) {struct g}
  : Request * option error :=
  match g with
  | mk_group rq _ agg => modify_loop Modifier_ModifyRequest agg rq None req
  end.

Fixpoint Modifier_ModifyResponse (m : Modifier) (res : Response) {struct m}
  : Response * option error :=
  match m with
  | Func _ f => f res
  | GroupPtr g => group_ModifyResponse g res
  | ImmutableGroupPtr g => group_ModifyResponse g res
  end
with group_ModifyResponse (g : group) (res : Response) {struct g}
  : Response * option error :=
  match g with
  | mk_group _ rs agg => modify_loop Modifier_ModifyResponse agg rs None res
  end.

(** [Group.ToImmutable]: the two loops append to [reqmods] and [resmods];
    the result is the [group] embedded in the new [ImmutableGroup]. *)
Fixpoint ToImmutable (g : group) {struct g} : group :=
  match g with
  | mk_group rq rs agg =>
      mk_group
        ((fix loop (mods acc : list Modifier) {struct mods} : list Modifier :=
            match mods with
            | [] => acc
            | m :: rest =>
                match m with
                | GroupPtr mm =>
                    let im := ToImmutable mm in
                    if Bool.eqb agg (aggregateErrors im)
                    then loop rest (acc ++ reqmods im)
                    else loop rest (acc ++ [ImmutableGroupPtr im])
                | _ => loop rest (acc ++ [m])
                end
            end) rq [])
        ((fix loop (mods acc : list Modifier) {struct mods} : list Modifier :=
            match mods with
            | [] => acc
            | m :: rest =>
                match m with
                | GroupPtr mm =>
                    let im := ToImmutable mm in
                    if Bool.eqb agg (aggregateErrors im)
                    then loop rest (acc ++ resmods im)
                    else loop rest (acc ++ [ImmutableGroupPtr im])
                | _ => loop rest (acc ++ [m])
                end
            end) rs [])
        agg
  end.

(** What [ToImmutable] puts in the place of one entry of a group whose
    flag is [agg]: "for any nested entry that is itself a mutable group,
    recursively snapshot; if the child's aggregation flag equals the
    parent's, inline the child's sequence into the parent's; otherwise
    keep the child as a nested immutable group". *)
Definition snapshot_request_entry (agg : bool) (m : Modifier) : list Modifier :=
  match m with
  | GroupPtr mm =>
      if Bool.eqb agg (aggregateErrors mm) then reqmods (ToImmutable mm)
      else [ImmutableGroupPtr (ToImmutable mm)]
  | _ => [m]
  end.

Definition snapshot_response_entry (agg : bool) (m : Modifier) : list Modifier :=
  match m with
  | GroupPtr mm =>
      if Bool.eqb agg (aggregateErrors mm) then resmods (ToImmutable mm)
      else [ImmutableGroupPtr (ToImmutable mm)]
  | _ => [m]
  end.

(** The number of modifiers and groups in an entry, and in a group. *)
Fixpoint Modifier_size (m : Modifier) : nat :=
  match m with
  | Func _ _ => 1
  | GroupPtr g => S (group_size g)
  | ImmutableGroupPtr g => S (group_size g)
  end
with group_size (g : group) : nat :=
  match g with
  | mk_group rq rs _ =>
      S ((fix sum (l : list Modifier) : nat :=
            match l with [] => 0 | m :: r => Modifier_size m + sum r end) rq
         + (fix sum (l : list Modifier) : nat :=
              match l with [] => 0 | m :: r => Modifier_size m + sum r end) rs)
  end.

(** The positions of the entries of [g] that [g.ModifyRequest]
    (resp. [g.ModifyResponse]) invokes, in the order of invocation. *)
Definition executed_requests (g : group) (req : Request) : list nat :=
  executed Modifier_ModifyRequest (aggregateErrors g) (reqmods g) req.

Definition executed_responses (g : group) (res : Response) : list nat :=
  executed Modifier_ModifyResponse (aggregateErrors g) (resmods g) res.
End Groups.

(** *** Sample groups *)

(** A group of three counters: the second fails, the third would add 100. *)
Definition boom : error := ErrorString "boom".
Definition bang : error := ErrorString "bang".

Definition counters (agg : bool) : group nat nat :=
  let e1 := Func (fun r : nat => (r + 1, None)) (fun r : nat => (r + 2, None)) in
  let e2 := Func (fun r : nat => (r + 10, Some boom))
                 (fun r : nat => (r + 20, Some bang)) in
  let e3 := Func (fun r : nat => (r + 100, if agg then Some bang else None))
                 (fun r : nat => (r + 200, None)) in
  mk_group [e1; e2; e3] [e1; e2; e3] agg.

(** A non-aggregating parent around an aggregating child and a
    non-aggregating child: the second is inlined, the first kept nested. *)
Definition nested_example : group nat nat :=
  let e := Func (fun r : nat => (r + 1, Some boom)) (fun r : nat => (r, None)) in
  mk_group [GroupPtr (mk_group [e; e] [] true); GroupPtr (mk_group [e; e] [] false)]
           [] false.

End fifo.

(** ** connmetric: the instrumented connection *)
Module connmetric.

(** [StatsEntry] of tracker.go; [Duration] in nanoseconds. *)
Record StatsEntry : Type := {
  Address : string;
  Duration : Z;
  BytesIn : Z;
  BytesOut : Z;
  Error : option error
}.

(** What an [InstrumentedConn] does to its collaborators: the calls it
    forwards to the embedded [net.Conn] and [tracker.RecordStats]. *)
Inductive event : Type :=
| Conn_Read
| Conn_Write
| Conn_Close
| RecordStats (entry : StatsEntry).

(** How a call ends: it returns, or it panics. *)
Inductive outcome (A : Type) : Type :=
| Returns (a : A)
| Panics.
Arguments Panics {A}.

(** The fields of [InstrumentedConn] that change or are reported.
    [bytesIn] and [bytesOut] are the [uint64] cells the pointers refer to.
    [error_] is the [atomic.Pointer[error]]: [None] is the nil [*error] a
    zero-valued pointer loads, [Some e] a pointer to a variable holding
    [e]. [closeOnce] is true once [sync.Once] has run its function. *)
Record InstrumentedConn : Type := {
  address : string;
  start : Z;
  bytesIn : Z;
  bytesOut : Z;
  error_ : option (option error);
  closeOnce : bool;
  closeError : option error
}.

Definition uint64_add (a n : Z) : Z := ((a + n) mod 2 ^ 64)%Z.

(** [NewInstrumentedConn]: counters at zero, every other field at its zero
    value; [remote] is [conn.RemoteAddr().String()], [now] is
    [time.Now()]. *)
Definition NewInstrumentedConn (remote : string) (now : Z) : InstrumentedConn :=
  {| address := remote; start := now; bytesIn := 0; bytesOut := 0;
     error_ := None; closeOnce := false; closeError := None |}.

(** [if err != nil && *ic.error.Load() == nil { ic.error.Store(&err) }]:
    the right operand is evaluated only when [err != nil], and dereferences
    what [Load] returns. [None] is the panic of a nil dereference. *)
Definition record_error (ic : InstrumentedConn) (err : option error)
  : option InstrumentedConn :=
  match err with
  | None => Some ic
  | Some e =>
      match error_ ic with
      | None => None
      | Some None =>
          Some {| address := address ic; start := start ic;
                  bytesIn := bytesIn ic; bytesOut := bytesOut ic;
                  error_ := Some (Some e);
                  closeOnce := closeOnce ic; closeError := closeError ic |}
      | Some (Some _) => Some ic
      end
  end.

(** [Read]; [n] and [err] are what [ic.Conn.Read(b)] returns. *)
Definition Read (ic : InstrumentedConn) (n : Z) (err : option error)
  : InstrumentedConn * list event * outcome (Z * option error) :=
  match record_error ic err with
  | None => (ic, [Conn_Read], Panics)
  | Some ic1 =>
      ({| address := address ic1; start := start ic1;
          bytesIn := uint64_add (bytesIn ic1) n; bytesOut := bytesOut ic1;
          error_ := error_ ic1;
          closeOnce := closeOnce ic1; closeError := closeError ic1 |},
       [Conn_Read], Returns (n, err))
  end.

(** [Write]; [n] and [err] are what [ic.Conn.Write(b)] returns. *)
Definition Write (ic : InstrumentedConn) (n : Z) (err : option error)
  : InstrumentedConn * list event * outcome (Z * option error) :=
  match record_error ic err with
  | None => (ic, [Conn_Write], Panics)
  | Some ic1 =>
      ({| address := address ic1; start := start ic1;
          bytesIn := bytesIn ic1; bytesOut := uint64_add (bytesOut ic1) n;
          error_ := error_ ic1;
          closeOnce := closeOnce ic1; closeError := closeError ic1 |},
       [Conn_Write], Returns (n, err))
  end.

(** [close]; [now] is the clock read by [time.Since], [cerr] what
    [ic.Conn.Close()] returns. The assignment to [closeError] precedes the
    evaluation of the [StatsEntry] literal, whose [Error] field dereferences
    [ic.error.Load()]. The boolean tells whether [close] returned. *)
Definition close (ic : InstrumentedConn) (now : Z) (cerr : option error)
  : InstrumentedConn * list event * bool :=
  let dur := (now - start ic)%Z in
  let ic1 := {| address := address ic; start := start ic;
                bytesIn := bytesIn ic; bytesOut := bytesOut ic;
                error_ := error_ ic;
                closeOnce := closeOnce ic; closeError := cerr |} in
  match error_ ic1 with
  | None => (ic1, [Conn_Close], false)
  | Some e =>
      (ic1,
       [Conn_Close;
        RecordStats {| Address := address ic1; Duration := dur;
                       BytesIn := bytesIn ic1; BytesOut := bytesOut ic1;
                       Error := e |}],
       true)
  end.

Definition set_closeOnce (ic : InstrumentedConn) : InstrumentedConn :=
  {| address := address ic; start := start ic;
     bytesIn := bytesIn ic; bytesOut := bytesOut ic; error_ := error_ ic;
     closeOnce := true; closeError := closeError ic |}.

(** [Close]: [ic.closeOnce.Do(ic.close); return ic.closeError].
    [sync.Once] marks itself done also when the function panics, and the
    panic propagates to the caller of [Close]. *)
Definition Close (ic : InstrumentedConn) (now : Z) (cerr : option error)
  : InstrumentedConn * list event * outcome (option error) :=
  if closeOnce ic then (ic, [], Returns (closeError ic))
  else
    let '(ic1, evs, returned) := close ic now cerr in
    let ic2 := set_closeOnce ic1 in
    if returned then (ic2, evs, Returns (closeError ic2))
    else (ic2, evs, Panics).

(** One call on the connection, with what the inner socket (and the clock)
    answer if the call reaches them. *)
Inductive call : Type :=
| CallRead (n : Z) (err : option error)
| CallWrite (n : Z) (err : option error)
| CallClose (now : Z) (cerr : option error).

(** The result of a call, whichever method it was: whether it returned. *)
Definition returned {A : Type} (o : outcome A) : bool :=
  match o with Returns _ => true | Panics => false end.

Definition step (ic : InstrumentedConn) (c : call)
  : InstrumentedConn * list event * bool :=
  match c with
  | CallRead n err => let '(ic', evs, o) := Read ic n err in (ic', evs, returned o)
  | CallWrite n err => let '(ic', evs, o) := Write ic n err in (ic', evs, returned o)
  | CallClose now cerr => let '(ic', evs, o) := Close ic now cerr in (ic', evs, returned o)
  end.

(** A sequence of calls, each by a caller that survives the panic of the
    one before: the final connection and everything done to the inner
    socket and the tracker. *)
Fixpoint exec (ic : InstrumentedConn) (cs : list call)
  : InstrumentedConn * list event :=
  match cs with
  | [] => (ic, [])
  | c :: rest =>
      let '(ic1, evs, _) := step ic c in
      let (ic2, evs') := exec ic1 rest in
      (ic2, evs ++ evs')
  end.

Definition is_RecordStats (e : event) : bool :=
  match e with RecordStats _ => true | _ => false end.

Definition is_Conn_Close (e : event) : bool :=
  match e with Conn_Close => true | _ => false end.

(** The byte counts of the [Write] calls of a sequence that returned a nil
    error, added up. *)
Fixpoint successful_write_bytes (cs : list call) : Z :=
  match cs with
  | [] => 0
  | CallWrite n None :: rest => (n + successful_write_bytes rest)%Z
  | _ :: rest => successful_write_bytes rest
  end.

End connmetric.

(** ** proxy.go *)
Module proxy.

(** *** Error classification *)

(** [strings.Contains]. *)
Fixpoint Contains (s substr : string) : bool :=
  if String.prefix substr s then true
  else match s with
       | EmptyString => false
       | String _ s' => Contains s' substr
       end.

Definition newline : string := String (ascii_of_nat 10) EmptyString.

(** [err.Error()]. The texts of the sentinels are those of package [io]
    and of [errClose]; a [MultiError] renders as its members' texts joined
    (Modelled from the spec: "a container whose rendering joins member
    errors"). *)
Fixpoint Error (e : error) : string :=
  match e with
  | io_EOF => "EOF"
  | io_ErrClosedPipe => "io: read/write on closed pipe"
  | io_ErrUnexpectedEOF => "unexpected EOF"
  | errClose => "closing connection"
  | NetError msg _ => msg
  | ErrForceClose msg => msg
  | ErrorString msg => msg
  | MultiError errs => String.concat newline (map Error errs)
  end.

(** [isCloseable]: the type assertion to [net.Error] with [Timeout()], the
    [switch] over the sentinels, the search for ["tls:"] in the text. *)
Definition isCloseable (err : error) : bool :=
  if match err with NetError _ timeout => timeout | _ => false end then true
  else if match err with
          | io_EOF | io_ErrClosedPipe | errClose => true
          | _ => false
          end then true
  else if Contains (Error err) "tls:" then true
  else false.

(** *** Messages, session, context *)

Module Request.
(** The fields of [*http.Request] that the engine reads or writes.
    [Upgrade] is what [upgradeType(req.Header)] returns, [Warning] the
    errors written into the Warning header. *)
Record t : Type := mk {
  Method : string;
  ProtoMajor : Z;
  ProtoMinor : Z;
  Close : bool;
  Host : string;
  URL_Host : string;
  URL_Scheme : string;
  RemoteAddr : string;
  TLS : bool;
  Upgrade : string;
  Warning : list error
}.

(** [ProtoAtLeast] of [http.Request]. *)
Definition ProtoAtLeast (r : t) (major minor : Z) : bool :=
  (ProtoMajor r >? major)%Z
  || ((ProtoMajor r =? major)%Z && (ProtoMinor r >=? minor)%Z).
End Request.

Module Response.
(** The fields of [*http.Response] that the engine reads or writes.
    [BodyReadWriteCloser] tells whether [res.Body] implements
    [io.ReadWriteCloser]. *)
Record t : Type := mk {
  StatusCode : Z;
  Close : bool;
  Request : option Request.t;
  ContentLength : Z;
  Upgrade : string;
  Warning : list error;
  Chunked : bool;
  ContentType : string;
  BodyReadWriteCloser : bool
}.
End Response.

(** Modelled from the spec: [proxyutil.NewResponse(code, nil, req)]
    (package proxyutil is not among the sources), the "synthetic" response
    for [req]: the status code and the request, nothing else set. *)
Definition NewResponse (code : Z) (req : Request.t) : Response.t :=
  Response.mk code false (Some req) 0 "" [] false "" false.

(** Modelled from the spec: [shouldFlush], "flush-eligible: chunked transfer
    encoding and Content-Type starts with text/event-stream". *)
Definition shouldFlush (res : Response.t) : bool :=
  Response.Chunked res && String.prefix "text/event-stream" (Response.ContentType res).

(** Modelled from the spec: the [Session] flags ("secure", "hijacked"). *)
Record Session : Type := { secure : bool; hijacked : bool }.

Definition MarkSecure (s : Session) : Session :=
  {| secure := true; hijacked := hijacked s |}.

(** Modelled from the spec: the per-request [Context] flag consulted by
    [roundTrip]. *)
Record Context : Type := { skipRoundTrip : bool }.

Definition SkippingRoundTrip (ctx : Context) : bool := skipRoundTrip ctx.

(** What one invocation of a modifier does besides changing the message:
    the error it returns, whether it hijacks the session, whether it asks
    to skip the round trip. *)
Record Effect : Type := {
  mod_error : option error;
  mod_hijack : bool;
  mod_skip_round_trip : bool
}.

(** The connection a handler works on: [*tls.Conn], [*trafficshape.Conn]
    (around a [*tls.Conn] or not), or any other [net.Conn]. *)
Inductive Conn : Type :=
| PlainConn
| TLSConn
| ShapedConn (wraps_tls : bool).

Record Proxy : Type := {
  AllowHTTP : bool;
  ConnectPassthrough : bool;
  WithoutWarning : bool;
  ErrorResponse : option (Request.t -> error -> Response.t);
  ReadTimeout : Z;
  ReadHeaderTimeout : Z;
  WriteTimeout : Z;
  CloseAfterReply : bool;
  roundTripper : Request.t -> Response.t + error;
  mitm : bool;
  reqmod : Request.t -> Request.t * Effect;
  resmod : Response.t -> Response.t * Effect
}.

(** What the engine does, in order: calls on the client connection and its
    buffered reader/writer, invocations of the collaborators, and the
    deferred closes. [Hijack] marks the moment a modifier took the
    connection over. *)
Inductive event : Type :=
| SetReadDeadline (d : option Z)
| ReadRequest
| CloseWrite
| ModifyRequest (req : Request.t)
| ModifyResponse (res : Response.t)
| Hijack
| RoundTrip (req : Request.t)
| Connect (req : Request.t)
| SetWriteDeadline (d : Z)
| WriteResponse (res : Response.t) (flushing : bool)
| Flush
| Peek
| TLSHandshake
| HandshakeErrorCallback
| H2Proxy
| Splice (name : string)
| UpstreamClose
| RequestBodyClose
| ResponseBodyClose
| ConnClose.

(** How a call of the engine ends: it returns an error or nil, or it is
    still waiting for input. *)
Inductive outcome : Type :=
| Returned (err : option error)
| Blocked.

(** What [p.connect(req)] returns: a response with a nil error, or an
    error; [cconn] tells whether the connection returned is non-nil. *)
Inductive ConnectResult : Type :=
| Connected (res : Response.t) (cconn : bool)
| ConnectFailed (err : error) (cconn : bool).

(** What the surroundings answer during one call of [handle]. *)
Record Env : Type := {
  read : Request.t + error;
  remote_addr : string;
  close_writer : bool;
  closing_on_read : bool;
  closing_on_reply : bool;
  dump_error : option error;
  write_error : option error;
  flush_error : option error;
  peeked : Z;
  handshake_error : option error;
  negotiated_h2 : bool;
  h2_result : option error;
  connect_result : ConnectResult
}.

(** One call of [handle]: its surroundings and, for a CONNECT that is
    intercepted, the call of [handle] it makes on the tunnelled stream. *)
Inductive Exchange : Type :=
| Exch (env : Env) (inner : option Exchange).

(** *** The engine *)

Definition deadline (d : Z) : option Z :=
  if (d >? 0)%Z then Some d else None.

Definition option_Z_eqb (a b : option Z) : bool :=
  match a, b with
  | None, None => true
  | Some x, Some y => (x =? y)%Z
  | _, _ => false
  end.

Definition readHeaderTimeout (p : Proxy) : Z :=
  if (ReadHeaderTimeout p >? 0)%Z then ReadHeaderTimeout p else ReadTimeout p.

(** [readRequest]; deadlines are offsets from [t0]. *)
Definition readRequest (p : Proxy) (env : Env) : list event * (Request.t + error) :=
  let hdrDeadline := deadline (readHeaderTimeout p) in
  let wholeReqDeadline := deadline (ReadTimeout p) in
  let adjust := if option_Z_eqb hdrDeadline wholeReqDeadline then []
                else [SetReadDeadline wholeReqDeadline] in
  match read env with
  | inr err =>
      ([SetReadDeadline hdrDeadline; ReadRequest]
         ++ (if close_writer env then [CloseWrite] else []) ++ adjust,
       inr err)
  | inl req =>
      ([SetReadDeadline hdrDeadline; ReadRequest] ++ adjust,
       if closing_on_read env then inr errClose else inl req)
  end.

(** [roundTrip]. *)
Definition roundTrip (p : Proxy) (ctx : Context) (req : Request.t)
  : list event * (Response.t + error) :=
  if SkippingRoundTrip ctx then ([], inl (NewResponse 200 req))
  else ([RoundTrip req], roundTripper p req).

(** [p.warning] on a header. *)
Definition warning (p : Proxy) (h : list error) (err : error) : list error :=
  if WithoutWarning p then h else h ++ [err].

Definition errorResponse (p : Proxy) (req : Request.t) (err : error) : Response.t :=
  match ErrorResponse p with
  | Some f => f req err
  | None => NewResponse 502 req
  end.

Definition warn_request (p : Proxy) (req : Request.t) (err : option error) : Request.t :=
  match err with
  | None => req
  | Some e =>
      Request.mk (Request.Method req) (Request.ProtoMajor req) (Request.ProtoMinor req)
        (Request.Close req) (Request.Host req) (Request.URL_Host req)
        (Request.URL_Scheme req) (Request.RemoteAddr req) (Request.TLS req)
        (Request.Upgrade req) (warning p (Request.Warning req) e)
  end.

Definition warn_response (p : Proxy) (res : Response.t) (err : option error) : Response.t :=
  match err with
  | None => res
  | Some e =>
      Response.mk (Response.StatusCode res) (Response.Close res) (Response.Request res)
        (Response.ContentLength res) (Response.Upgrade res)
        (warning p (Response.Warning res) e) (Response.Chunked res)
        (Response.ContentType res) (Response.BodyReadWriteCloser res)
  end.

(** A modifier runs: the session and the context after it, and the events. *)
Definition after_modifier (s : Session) (ctx : Context) (eff : Effect)
  : Session * Context :=
  ({| secure := secure s; hijacked := hijacked s || mod_hijack eff |},
   {| skipRoundTrip := skipRoundTrip ctx || mod_skip_round_trip eff |}).

Definition hijack_events (eff : Effect) : list event :=
  if mod_hijack eff then [Hijack] else [].

(** [tunnel]: the response is written and flushed, what the client sent
    ahead is drained, and both directions are copied until they end. *)
Definition tunnel (env : Env) (name : string) (res : Response.t) : list event :=
  WriteResponse res false ::
  match write_error env with
  | Some _ => []
  | None =>
      Flush ::
      match flush_error env with
      | Some _ => []
      | None => [Splice name]
      end
  end.

(** [handleUpgradeResponse]. *)
Definition handleUpgradeResponse (env : Env) (res : Response.t)
  : list event * option error :=
  let resUpType := Response.Upgrade res in
  if Response.BodyReadWriteCloser res
  then (tunnel env resUpType res, Some errClose)
  else ([], Some errClose).

Definition set_Close (res : Response.t) : Response.t :=
  Response.mk (Response.StatusCode res) true (Response.Request res)
    (Response.ContentLength res) (Response.Upgrade res) (Response.Warning res)
    (Response.Chunked res) (Response.ContentType res)
    (Response.BodyReadWriteCloser res).

(** The condition of the [if] that sets [res.Close] in [handle]. *)
Definition close_requested (env : Env) (req : Request.t) (res : Response.t) : bool :=
  negb (Request.ProtoAtLeast req 1 1) || Request.Close req || Response.Close res
  || closing_on_reply env.

Definition is_ErrForceClose (err : error) : bool :=
  match err with ErrForceClose _ => true | _ => false end.

Definition is_ErrUnexpectedEOF (err : error) : bool :=
  match err with io_ErrUnexpectedEOF => true | _ => false end.

(** The end of [handle], from [var closing error] on: the response as the
    modifiers left it is written back. *)
Definition reply (p : Proxy) (conn : Conn) (env : Env)
  (req : Request.t) (res : Response.t) : list event * option error :=
  let (res1, closing) :=
    if close_requested env req res then (set_Close res, Some errClose)
    else (res, None) in
  match conn, dump_error env with
  | ShapedConn _, Some err => ([], Some err)
  | _, _ =>
      if (Response.StatusCode res1 =? 101)%Z then handleUpgradeResponse env res1
      else
        let evs_deadline :=
          if (WriteTimeout p >? 0)%Z then [SetWriteDeadline (WriteTimeout p)]
          else [] in
        let closing1 :=
          match write_error env with
          | Some err =>
              let c := if is_ErrForceClose err then Some errClose else closing in
              if is_ErrUnexpectedEOF err then Some errClose else c
          | None => closing
          end in
        let closing2 :=
          match flush_error env with
          | Some err => if is_ErrForceClose err then Some errClose else closing1
          | None => closing1
          end in
        let closing3 := if CloseAfterReply p then Some errClose else closing2 in
        (evs_deadline ++ [WriteResponse res1 (shouldFlush res1); Flush], closing3)
  end.

Definition set_Upgrade_request (req : Request.t) (up : string) : Request.t :=
  Request.mk (Request.Method req) (Request.ProtoMajor req) (Request.ProtoMinor req)
    (Request.Close req) (Request.Host req) (Request.URL_Host req)
    (Request.URL_Scheme req) (Request.RemoteAddr req) (Request.TLS req)
    up (Request.Warning req).

Definition set_Upgrade_response (res : Response.t) (up : string) : Response.t :=
  Response.mk (Response.StatusCode res) (Response.Close res) (Response.Request res)
    (Response.ContentLength res) up (Response.Warning res)
    (Response.Chunked res) (Response.ContentType res)
    (Response.BodyReadWriteCloser res).

Definition set_Request (res : Response.t) (req : Request.t) : Response.t :=
  Response.mk (Response.StatusCode res) (Response.Close res) (Some req)
    (Response.ContentLength res) (Response.Upgrade res) (Response.Warning res)
    (Response.Chunked res) (Response.ContentType res)
    (Response.BodyReadWriteCloser res).

Definition set_ContentLength (res : Response.t) (n : Z) : Response.t :=
  Response.mk (Response.StatusCode res) (Response.Close res) (Response.Request res)
    n (Response.Upgrade res) (Response.Warning res)
    (Response.Chunked res) (Response.ContentType res)
    (Response.BodyReadWriteCloser res).

(** [handle] from [reqUpType := upgradeType(req.Header)] to its end, for a
    request that is not a CONNECT; the deferred [res.Body.Close()] is the
    last event once a response exists. *)
Definition handleRequest (p : Proxy) (conn : Conn) (env : Env)
  (s : Session) (req : Request.t) : Session * list event * option error :=
  let ctx := {| skipRoundTrip := false |} in
  let reqUpType := Request.Upgrade req in
  let (req1, eff) := reqmod p req in
  let req2 := warn_request p req1 (mod_error eff) in
  let (s1, ctx1) := after_modifier s ctx eff in
  let evs1 := ModifyRequest req :: hijack_events eff in
  if hijacked s1 then (s1, evs1, None)
  else
    let req3 := if String.eqb reqUpType "" then req2
                else set_Upgrade_request req2 reqUpType in
    let (evs2, rt) := roundTrip p ctx1 req3 in
    let res :=
      match rt with
      | inl res => res
      | inr err => warn_response p (errorResponse p req3 err) (Some err)
      end in
    let res1 := set_Request res req3 in
    let resUpType := Response.Upgrade res1 in
    let (res2, eff') := resmod p res1 in
    let res3 := warn_response p res2 (mod_error eff') in
    let (s2, _) := after_modifier s1 ctx1 eff' in
    let evs3 := ModifyResponse res1 :: hijack_events eff' in
    if hijacked s2 then (s2, evs1 ++ evs2 ++ evs3 ++ [ResponseBodyClose], None)
    else
      let res4 := if String.eqb resUpType "" then res3
                  else set_Upgrade_response res3 resUpType in
      let (evs4, r) := reply p conn env req3 res4 in
      (s2, evs1 ++ evs2 ++ evs3 ++ evs4 ++ [ResponseBodyClose], r).

(** The connection [handle] is re-entered on after a TLS handshake. *)
Definition mitm_conn (conn : Conn) : Conn :=
  match conn with
  | ShapedConn _ => ShapedConn true
  | _ => TLSConn
  end.

(** [handleConnectRequest]; [nested] is the call [p.handle(ctx, nconn, brw)]
    on the intercepted stream. *)
Definition handleConnectRequest (p : Proxy) (conn : Conn) (env : Env)
  (s : Session) (req : Request.t)
  (nested : Conn -> Session -> Session * list event * outcome)
  : Session * list event * outcome :=
  let ctx := {| skipRoundTrip := false |} in
  let (req1, eff) := reqmod p req in
  let req2 := warn_request p req1 (mod_error eff) in
  let (s1, ctx1) := after_modifier s ctx eff in
  let evs1 := ModifyRequest req :: hijack_events eff in
  if hijacked s1 then (s1, evs1, Returned None)
  else if mitm p then
    let res := NewResponse 200 req2 in
    let (res1, eff') := resmod p res in
    let res2 := warn_response p res1 (mod_error eff') in
    let (s2, _) := after_modifier s1 ctx1 eff' in
    let evs2 := ModifyResponse res :: hijack_events eff' in
    if hijacked s2 then (s2, evs1 ++ evs2, Returned None)
    else
      let evs3 := [WriteResponse res2 false; Flush; Peek] in
      if (peeked env =? 22)%Z then
        match handshake_error env with
        | Some err =>
            (s2, evs1 ++ evs2 ++ evs3 ++ [TLSHandshake; HandshakeErrorCallback],
             Returned (Some err))
        | None =>
            if negotiated_h2 env
            then (s2, evs1 ++ evs2 ++ evs3 ++ [TLSHandshake; H2Proxy],
                  Returned (h2_result env))
            else
              let '(s3, evs4, out) := nested (mitm_conn conn) s2 in
              (s3, evs1 ++ evs2 ++ evs3 ++ [TLSHandshake] ++ evs4, out)
        end
      else
        let '(s3, evs4, out) := nested conn s2 in
        (s3, evs1 ++ evs2 ++ evs3 ++ evs4, out)
  else
    (* [res] or [cerr], and the deferred closes registered so far *)
    let '(evs2, rc, defers) :=
      if ConnectPassthrough p then
        let (evs, rt) := roundTrip p ctx1 req2 in
        match rt with
        | inl res =>
            (evs,
             inl (if (Z.quot (Response.StatusCode res) 100 =? 2)%Z
                  then NewResponse 200 req2 else res),
             [RequestBodyClose])
        | inr err => (evs, inr err, [RequestBodyClose])
        end
      else
        match connect_result env with
        | Connected res cconn =>
            ([Connect req2], inl res, if cconn then [UpstreamClose] else [])
        | ConnectFailed err cconn =>
            ([Connect req2], inr err, if cconn then [UpstreamClose] else [])
        end
    in
    let res :=
      match rc with
      | inr err => warn_response p (errorResponse p req2 err) (Some err)
      | inl res => res
      end in
    let defers1 := ResponseBodyClose :: defers in
    let (res1, eff') := resmod p res in
    let res2 := warn_response p res1 (mod_error eff') in
    let (s2, _) := after_modifier s1 ctx1 eff' in
    let evs3 := ModifyResponse res :: hijack_events eff' in
    if hijacked s2 then (s2, evs1 ++ evs2 ++ evs3 ++ defers1, Returned None)
    else if negb (Response.StatusCode res2 =? 200)%Z then
      (s2, evs1 ++ evs2 ++ evs3 ++ [WriteResponse res2 false; Flush] ++ defers1,
       Returned (flush_error env))
    else
      let res3 := set_ContentLength res2 (-1) in
      (s2, evs1 ++ evs2 ++ evs3 ++ tunnel env "CONNECT" res3 ++ defers1,
       Returned (Some errClose)).

Definition prepare_request (conn : Conn) (env : Env) (req : Request.t) : Request.t :=
  let tls := match conn with
             | TLSConn | ShapedConn true => true
             | _ => Request.TLS req
             end in
  Request.mk (Request.Method req) (Request.ProtoMajor req) (Request.ProtoMinor req)
    (Request.Close req) (Request.Host req)
    (if String.eqb (Request.URL_Host req) "" then Request.Host req
     else Request.URL_Host req)
    (Request.URL_Scheme req) (remote_addr env) tls
    (Request.Upgrade req) (Request.Warning req).

Definition set_Scheme (req : Request.t) (scheme : string) : Request.t :=
  Request.mk (Request.Method req) (Request.ProtoMajor req) (Request.ProtoMinor req)
    (Request.Close req) (Request.Host req) (Request.URL_Host req)
    scheme (Request.RemoteAddr req) (Request.TLS req)
    (Request.Upgrade req) (Request.Warning req).

(** The scheme [handle] gives the URL of a request that is not a CONNECT. *)
Definition fix_scheme (p : Proxy) (s : Session) (req : Request.t) : Request.t :=
  if String.eqb (Request.URL_Scheme req) "" then
    set_Scheme req (if secure s then "https" else "http")
  else if String.eqb (Request.URL_Scheme req) "http" then
    if secure s && negb (AllowHTTP p) then set_Scheme req "https" else req
  else req.

(** [handle]; the deferred [req.Body.Close()] runs when it returns. *)
Fixpoint handle (p : Proxy) (conn : Conn) (s : Session) (x : Exchange) {struct x}
  : Session * list event * outcome :=
  match x with
  | Exch env inner =>
      let (evs0, r) := readRequest p env in
      match r with
      | inr err => (s, evs0, Returned (Some err))
      | inl req0 =>
          let s0 := match conn with
                    | TLSConn | ShapedConn true => MarkSecure s
                    | _ => s
                    end in
          let req := prepare_request conn env req0 in
          if String.eqb (Request.Method req) "CONNECT" then
            let '(s1, evs1, out) :=
              handleConnectRequest p conn env s0 req
                (fun conn' s' =>
                   match inner with
                   | Some x' => handle p conn' s' x'
                   | None => (s', [], Blocked)
                   end) in
            match out with
            | Returned _ => (s1, evs0 ++ evs1 ++ [RequestBodyClose], out)
            | Blocked => (s1, evs0 ++ evs1, Blocked)
            end
          else
            let '(s1, evs1, err) :=
              handleRequest p conn env s0 (fix_scheme p s0 req) in
            (s1, evs0 ++ evs1 ++ [RequestBodyClose], Returned err)
      end
  end.

Definition maxConsecutiveErrors : nat := 5.

(** The [for] loop of [handleLoop]: the events, and whether the loop was
    left. The requests of the connection are the calls of [handle] that
    [script] describes; after the last of them the loop waits in
    [handle]. *)
Fixpoint handleLoop_for (p : Proxy) (conn : Conn) (s : Session) (errors : nat)
  (script : list Exchange) : list event * bool :=
  match script with
  | [] => ([], false)
  | x :: rest =>
      let '(s1, evs, out) := handle p conn s x in
      match out with
      | Blocked => (evs, false)
      | Returned r =>
          let next (errors' : nat) :=
            if hijacked s1 then (evs, true)
            else let (evs', left) := handleLoop_for p conn s1 errors' rest in
                 (evs ++ evs', left) in
          match r with
          | Some err =>
              if isCloseable err then (evs, true)
              else if maxConsecutiveErrors <=? S errors then (evs, true)
              else next (S errors)
          | None => next 0
          end
      end
  end.

(** [handleLoop]; [closing] is what [p.Closing()] answers on entry. The
    deferred [conn.Close()] runs when the function returns; the boolean
    tells whether it returned. *)
Definition handleLoop (p : Proxy) (conn : Conn) (closing : bool)
  (script : list Exchange) : list event * bool :=
  if closing then ([ConnClose], true)
  else
    let s := {| secure := false; hijacked := false |} in
    let (evs, left) := handleLoop_for p conn s 0 script in
    if left then (evs ++ [ConnClose], true) else (evs, false).

(** *** Reading a trace *)

(** The reads and writes on the client connection, through the buffered
    reader/writer, the TLS layer or the copy loops. *)
Definition is_conn_io (e : event) : bool :=
  match e with
  | ReadRequest | WriteResponse _ _ | Flush | Peek | TLSHandshake | H2Proxy
  | Splice _ => true
  | _ => false
  end.

(** The deferred closes of bodies and of the upstream connection. *)
Definition is_deferred_close (e : event) : bool :=
  match e with
  | RequestBodyClose | ResponseBodyClose | UpstreamClose => true
  | _ => false
  end.

(** What follows the first [Hijack] of a trace. *)
Fixpoint after_hijack (evs : list event) : option (list event) :=
  match evs with
  | [] => None
  | Hijack :: rest => Some rest
  | _ :: rest => after_hijack rest
  end.

Definition is_Hijack (e : event) : bool :=
  match e with Hijack => true | _ => false end.

(** No modifier took the connection over during [evs]. *)
Definition quiet (evs : list event) : bool :=
  forallb (fun e => negb (is_Hijack e)) evs.

(** What a call of the engine that started on a session not yet hijacked
    may have done: either the session is still not hijacked and the trace
    is quiet, or the call returned nil ([returned_nil]) and the first
    [Hijack] of the trace is followed by deferred closes only. *)
Definition hijack_inv (s' : Session) (evs : list event) (returned_nil : Prop)
  : Prop :=
  if hijacked s' then
    returned_nil /\
    exists post, after_hijack evs = Some post /\
                 forallb is_deferred_close post = true
  else after_hijack evs = None.

(** The responses written to the client, in order. *)
Fixpoint written (evs : list event) : list Response.t :=
  match evs with
  | [] => []
  | WriteResponse res _ :: rest => res :: written rest
  | _ :: rest => written rest
  end.

(** "Once hijacked, the handler loop terminates without closing the
    socket and the engine neither reads nor writes on the connection", as
    a property of the trace of [handleLoop]. *)
Definition hijack_leaves_connection (r : list event * bool) : Prop :=
  forall pre post,
    fst r = pre ++ Hijack :: post ->
    snd r = true /\ ~ In ConnClose post /\
    Forall (fun e => is_conn_io e = false) post.

(** "[res.Close] is set and the connection terminated after writing
    exactly when the request is not HTTP/1.1, or Connection: close is on
    either side, or the proxy is shutting down, or CloseAfterReply is
    set", as a property of [reply]. *)
Definition closes_exactly_when (p : Proxy) (conn : Conn) (env : Env)
  (req : Request.t) (res : Response.t) : Prop :=
  forall res',
    written (fst (reply p conn env req res)) = [res'] ->
    (Response.Close res' = true /\
     snd (reply p conn env req res) = Some errClose)
    <->
    (Request.ProtoAtLeast req 1 1 = false \/ Request.Close req = true \/
     Response.Close res = true \/ closing_on_reply env = true \/
     CloseAfterReply p = true).



(** Whether the error of the write, or of the flush, makes [handle]
    return [errClose]. *)
Definition write_forces_close (env : Env) : bool :=
  match write_error env with
  | Some err => is_ErrForceClose err || is_ErrUnexpectedEOF err
  | None => false
  end.

Definition flush_forces_close (env : Env) : bool :=
  match flush_error env with
  | Some err => is_ErrForceClose err
  | None => false
  end.

(** *** A sample configuration *)

Definition sample_request : Request.t :=
  Request.mk "GET" 1 1 false "example.com" "example.com" "http" "" false "" [].

Definition no_effect : Effect :=
  {| mod_error := None; mod_hijack := false; mod_skip_round_trip := false |}.

(** A proxy whose transport answers 500 and whose request modifier hijacks
    the session when [hijacks] is set. *)
Definition sample_proxy (close_after_reply hijacks : bool) : Proxy :=
  {| AllowHTTP := false; ConnectPassthrough := false; WithoutWarning := false;
     ErrorResponse := None;
     ReadTimeout := 0; ReadHeaderTimeout := 0; WriteTimeout := 0;
     CloseAfterReply := close_after_reply;
     roundTripper := fun req => inl (NewResponse 500 req);
     mitm := false;
     reqmod := fun req =>
       (req, {| mod_error := None; mod_hijack := hijacks;
                mod_skip_round_trip := false |});
     resmod := fun res => (res, no_effect) |}.

(** Surroundings in which [sample_request] arrives and nothing fails. *)
Definition sample_env : Env :=
  {| read := inl sample_request; remote_addr := "10.0.0.1:4242";
     close_writer := true; closing_on_read := false; closing_on_reply := false;
     dump_error := None; write_error := None; flush_error := None;
     peeked := 0; handshake_error := None; negotiated_h2 := false;
     h2_result := None;
     connect_result := ConnectFailed (ErrorString "unreachable") false |}.

End proxy.

(** ** fifo/fifo_group.go: building and verifying groups *)
Module fifo_ops.
Import fifo.

Section Ops.
Variables (Request Response : Type).

(** [NewGroup]: the zero [Group]. *)
Definition NewGroup : group Request Response := mk_group [] [] false.

(** [SetAggregateErrors]. *)
Definition SetAggregateErrors (g : group Request Response) (aggerr : bool)
  : group Request Response :=
  mk_group (reqmods g) (resmods g) aggerr.

(** [AddRequestModifier]: [g.reqmods = append(g.reqmods, reqmod)]. *)
Definition AddRequestModifier (g : group Request Response)
  (reqmod : Modifier Request Response) : group Request Response :=
  mk_group (reqmods g ++ [reqmod]) (resmods g) (aggregateErrors g).

(** [AddResponseModifier]. *)
Definition AddResponseModifier (g : group Request Response)
  (resmod : Modifier Request Response) : group Request Response :=
  mk_group (reqmods g) (resmods g ++ [resmod]) (aggregateErrors g).

(** The type assertion of [m] to [*Group]. *)
Definition is_GroupPtr (m : Modifier Request Response) : bool :=
  match m with GroupPtr _ => true | _ => false end.
End Ops.

Section Verify.
(** [M] is the type of the entries; [verifier m] is [None] when the
    assertion [m.(verify.RequestVerifier)] (resp. [ResponseVerifier]) fails
    and otherwise what [VerifyRequests()] (resp. [VerifyResponses()])
    returns for that entry. *)
Variable M : Type.
Variable verifier : M -> option (option error).

(** The loop of [Group.VerifyRequests] and of [Group.VerifyResponses]. *)
Fixpoint verify_loop (mods : list M) (merr : option (list error)) : option error :=
  match mods with
  | [] =>
      match merr with
      | None => None
      | Some errs => if Empty errs then None else Some (MultiError errs)
      end
  | m :: rest =>
      match verifier m with
      | None => verify_loop rest merr
      | Some None => verify_loop rest merr
      | Some (Some err) =>
          let merr' := match merr with
                       | None => NewMultiError
                       | Some errs => errs
                       end in
          verify_loop rest (Some (Add merr' err))
      end
  end.

Definition Verify (mods : list M) : option error := verify_loop mods None.

(** The verification errors of the entries that are verifiers, in order. *)
Definition verification_errors (mods : list M) : list error :=
  flat_map (fun m => match verifier m with
                     | Some (Some err) => [err]
                     | _ => []
                     end) mods.
End Verify.

End fifo_ops.

(** ** proxy.go: the accept loop *)
Module proxy_serve.
Import proxy.

(** What [l.Accept()] returns: a connection ([tcp] tells whether it is a
    [*net.TCPConn]) or an error; [temporary] is the value of
    [err.(net.Error)] succeeding with [Temporary()] true. *)
Inductive accept_result : Type :=
| Accepted (tcp : bool)
| AcceptFailed (err : error) (temporary : bool).

Inductive serve_event : Type :=
| Sleep (d : Z)
| SetKeepAlive (period : Z)
| Go_handleLoop
| Listener_Close.

(** [time.Duration] is an [int64] count of nanoseconds. *)
Definition Millisecond : Z := 1000000.
Definition Second : Z := 1000000000.
Definition Minute : Z := 60 * Second.

Definition int64 (z : Z) : Z := ((z + 2 ^ 63) mod 2 ^ 64 - 2 ^ 63)%Z.

(** The delay slept after one more temporary error. *)
Definition next_delay (delay : Z) : Z :=
  let d := if (delay =? 0)%Z then int64 (5 * Millisecond)
           else int64 (delay * 2) in
  if (d >? Second)%Z then Second else d.

(** The [for] loop of [Serve]: each iteration observes [p.Closing()] and,
    if the proxy is not closing, the result of [l.Accept()]. After the
    script the loop waits in [Accept]. *)
Fixpoint Serve_for (delay : Z) (script : list (bool * accept_result))
  : list serve_event * outcome :=
  match script with
  | [] => ([], Blocked)
  | (closing, a) :: rest =>
      if closing then ([], Returned None)
      else
        match a with
        | AcceptFailed err true =>
            let d := next_delay delay in
            let (evs, out) := Serve_for d rest in
            (Sleep d :: evs, out)
        | AcceptFailed err false => ([], Returned (Some err))
        | Accepted tcp =>
            let (evs, out) := Serve_for 0 rest in
            ((if tcp then [SetKeepAlive (3 * Minute)] else [])
               ++ Go_handleLoop :: evs, out)
        end
  end.

(** [Serve]; the deferred [l.Close()] runs when it returns. *)
Definition Serve (script : list (bool * accept_result))
  : list serve_event * outcome :=
  let (evs, out) := Serve_for 0 script in
  match out with
  | Returned _ => (evs ++ [Listener_Close], out)
  | Blocked => (evs, out)
  end.

Fixpoint sleeps (evs : list serve_event) : list Z :=
  match evs with
  | [] => []
  | Sleep d :: rest => d :: sleeps rest
  | _ :: rest => sleeps rest
  end.

Definition is_Go_handleLoop (e : serve_event) : bool :=
  match e with Go_handleLoop => true | _ => false end.

Definition is_Accepted (x : bool * accept_result) : bool :=
  match snd x with Accepted _ => true | _ => false end.

(** [k] temporary errors in a row while the proxy is not closing. *)
Definition temporary_errors (err : error) (k : nat) : list (bool * accept_result) :=
  repeat (false, AcceptFailed err true) k.

(** Along the loop the delay is zero or between 5ms and one second. *)
Definition delay_ok (delay : Z) : Prop :=
  delay = 0%Z \/ (5 * Millisecond <= delay <= Second)%Z.

(** The pause after the [i+1]-th temporary error in a row. *)
Definition backoff (i : nat) : Z :=
  Z.min (5 * Millisecond * 2 ^ Z.of_nat i) Second.

(** *** Reading a trace of the handler *)

Definition is_ConnClose (e : event) : bool :=
  match e with ConnClose => true | _ => false end.

(** The last read deadline set in a trace, if any was set. *)
Fixpoint read_deadline (evs : list event) (d : option (option Z))
  : option (option Z) :=
  match evs with
  | [] => d
  | SetReadDeadline x :: rest => read_deadline rest (Some x)
  | _ :: rest => read_deadline rest d
  end.

Definition is_RoundTrip (e : event) : bool :=
  match e with RoundTrip _ => true | _ => false end.

Definition is_Splice (e : event) : bool :=
  match e with Splice _ => true | _ => false end.

(** The responses handed to the response modifier, in order. *)
Fixpoint modified_responses (evs : list event) : list Response.t :=
  match evs with
  | [] => []
  | ModifyResponse res :: rest => res :: modified_responses rest
  | _ :: rest => modified_responses rest
  end.

(** The requests handed to the request modifier, in order. *)
Fixpoint modified_requests (evs : list event) : list Request.t :=
  match evs with
  | [] => []
  | ModifyRequest req :: rest => req :: modified_requests rest
  | _ :: rest => modified_requests rest
  end.

(** Surroundings in which reading the request fails with [err]. *)
Definition read_fails (env : Env) (err : error) : Prop := read env = inr err.

End proxy_serve.

(** ** martianlog/logger.go *)
Module martianlog.

Definition UrlLogMode : string := "url".
Definition HeaderLogMode : string := "header".
Definition BodyLogMode : string := "body".
Definition ErrOnlyLogMode : string := "error".

(** [LoggerMode.IsValid]. *)
Definition IsValid (m : string) : bool :=
  String.eqb m UrlLogMode || String.eqb m HeaderLogMode
  || String.eqb m BodyLogMode || String.eqb m ErrOnlyLogMode.

Record Logger : Type := { mode : string; decode : bool }.

Definition NewLogger : Logger := {| mode := HeaderLogMode; decode := false |}.

Definition SetMode (l : Logger) (m : string) : Logger :=
  {| mode := m; decode := decode l |}.

Definition SetHeadersOnly (l : Logger) (headersOnly : bool) : Logger :=
  {| mode := if headersOnly then HeaderLogMode else BodyLogMode;
     decode := decode l |}.

Definition SetDecode (l : Logger) (d : bool) : Logger :=
  {| mode := mode l; decode := d |}.

Definition nl : string := String (ascii_of_nat 10) EmptyString.

(** [fmt.Fprintln(b, x)] on the buffer [b]. *)
Definition Fprintln (b x : string) : string := (b ++ x ++ nl)%string.

(** [strings.Repeat]. *)
Fixpoint Repeat (s : string) (count : nat) : string :=
  match count with
  | O => EmptyString
  | S n => (s ++ Repeat s n)%string
  end.

Definition rule : string := Repeat "-" 80.

Definition logUrl (b url : string) : string :=
  Fprintln (Fprintln (Fprintln (Fprintln b "") rule) url) rule.

Definition logEnd (b : string) : string := Fprintln (Fprintln b "") rule.

Definition logStatus (b status : string) : string :=
  Fprintln b ("status: " ++ status).

(** A request as the logger sees it: its URL printed, whether its context
    is skipping logging, and what the message view yields for it. [view
    skipBody decode] is the text read from [mv.Reader] after
    [mv.SkipBody(skipBody)] and the snapshot, or the error of the snapshot
    or of the reader. *)
Record Request : Type := {
  req_URL : string;
  req_SkippingLogging : bool;
  req_view : bool -> bool -> string + error
}.

Record Response : Type := {
  res_Request : Request;
  Status : string;
  StatusCode : Z;
  RoundTripDuration : option string;
  res_view : bool -> bool -> string + error
}.

(** [logRequest] and [logResponse]: the buffer and the error returned. *)
Definition logMessage (l : Logger) (b : string) (skipBody : bool)
  (view : bool -> bool -> string + error) : string * option error :=
  match view skipBody (decode l) with
  | inr err => (b, Some err)
  | inl text => ((b ++ text)%string, None)
  end.

(** [ModifyRequest]: the lines handed to the log function and the error
    returned. The deferred calls end the buffer and log it. *)
Definition ModifyRequest (l : Logger) (req : Request) : list string * option error :=
  if req_SkippingLogging req then ([], None)
  else if String.eqb (mode l) ErrOnlyLogMode then ([], None)
  else
    let b := logUrl "" ("Request to " ++ req_URL req) in
    if String.eqb (mode l) UrlLogMode then ([logEnd b], None)
    else
      let (b', err) :=
        logMessage l b (negb (String.eqb (mode l) BodyLogMode)) (req_view req) in
      ([logEnd b'], err).

(** [ModifyResponse]. *)
Definition ModifyResponse (l : Logger) (res : Response) : list string * option error :=
  let req := res_Request res in
  if req_SkippingLogging req then ([], None)
  else if String.eqb (mode l) ErrOnlyLogMode && (StatusCode res <? 400)%Z
  then ([], None)
  else
    let skipBody := negb (String.eqb (mode l) BodyLogMode) in
    let (b, early) :=
      if String.eqb (mode l) ErrOnlyLogMode && (StatusCode res >=? 400)%Z then
        let (b1, err) :=
          logMessage l (logUrl "" ("Request to " ++ req_URL req)) skipBody
                     (req_view req) in
        match err with
        | Some e => (b1, Some e)
        | None => (logEnd b1, None)
        end
      else (EmptyString, None) in
    match early with
    | Some e => ([logEnd b], Some e)
    | None =>
        let url :=
          match RoundTripDuration res with
          | Some d => ("Response from " ++ req_URL req
                         ++ ", round trip took " ++ d)%string
          | None => ("Response from " ++ req_URL req)%string
          end in
        let b2 := logUrl b url in
        if String.eqb (mode l) UrlLogMode
        then ([logEnd (logStatus b2 (Status res))], None)
        else
          let (b3, err) := logMessage l b2 skipBody (res_view res) in
          ([logEnd b3], err)
    end.

(** The end every logged block has. *)
Definition block_end : string := (nl ++ rule ++ nl)%string.

End martianlog.

(** ** package log: the levelled logger *)
Module log.

Definition Silent : Z := 0.
Definition Error : Z := 1.
Definition Info : Z := 2.
Definition Debug : Z := 3.

Section Logger.
(** [Arg] is the type of the variadic arguments; [Sprintf] is
    [fmt.Sprintf]. *)
Variable Arg : Type.
Variable Sprintf : string -> list Arg -> string.

(** The body shared by [Infof], [Debugf] and [Errorf] of the default
    logger: the lines printed with [log.Println] at the current level. *)
Definition logf (level threshold : Z) (prefix format : string)
  (args : list Arg) : list string :=
  if (level <? threshold)%Z then []
  else
    let msg := (prefix ++ format)%string in
    [if (0 <? length args)%nat then Sprintf msg args else msg].

Definition Infof (level : Z) := logf level Info "INFO: ".
Definition Debugf (level : Z) := logf level Debug "DEBUG: ".
Definition Errorf (level : Z) := logf level Error "ERROR: ".
End Logger.

End log.

(** ** connmetric: reading sequences of calls *)
Module connmetric_calls.
Import connmetric.

Definition is_CallClose (c : call) : bool :=
  match c with CallClose _ _ => true | _ => false end.

(** The byte counts of the [Read] calls of a sequence that returned a nil
    error, added up. *)
Fixpoint successful_read_bytes (cs : list call) : Z :=
  match cs with
  | [] => 0
  | CallRead n None :: rest => (n + successful_read_bytes rest)%Z
  | _ :: rest => successful_read_bytes rest
  end.

End connmetric_calls.

(** ** proxy.go: what one exchange computes *)
Module proxy_exchange.
Import proxy proxy_serve.

(** The surroundings of a call of [handle]. *)
Definition env_of (x : Exchange) : Env :=
  match x with Exch env _ => env end.

(** The request [handle] sends on the round trip: the request modifier
    has run, its error is in the Warning header, the upgrade headers are
    back. *)
Definition forwarded_request (p : Proxy) (req : Request.t) : Request.t :=
  let req2 := warn_request p (fst (reqmod p req)) (mod_error (snd (reqmod p req))) in
  if String.eqb (Request.Upgrade req) "" then req2
  else set_Upgrade_request req2 (Request.Upgrade req).

(** The context of the exchange after the request modifier. *)
Definition context_after_reqmod (p : Proxy) (req : Request.t) : Context :=
  {| skipRoundTrip := mod_skip_round_trip (snd (reqmod p req)) |}.

(** The response [handle] hands to the response modifier: that of the
    round trip, or the error response with its warning. *)
Definition round_trip_response (p : Proxy) (req : Request.t) : Response.t :=
  let req3 := forwarded_request p req in
  set_Request
    match snd (roundTrip p (context_after_reqmod p req) req3) with
    | inl res => res
    | inr err => warn_response p (errorResponse p req3 err) (Some err)
    end
    req3.

(** The response [handle] goes on to write: the response modifier has run,
    its error is in the Warning header, the upgrade headers are back. *)
Definition returned_response (p : Proxy) (req : Request.t) : Response.t :=
  let res1 := round_trip_response p req in
  let res3 := warn_response p (fst (resmod p res1))
                            (mod_error (snd (resmod p res1))) in
  if String.eqb (Response.Upgrade res1) "" then res3
  else set_Upgrade_response res3 (Response.Upgrade res1).

(** Whether the connection is, or wraps, a TLS connection. *)
Definition is_tls (conn : Conn) : bool :=
  match conn with
  | TLSConn | ShapedConn true => true
  | _ => false
  end.

(** Requests whose reading fails with an error that is not closeable. *)
Definition bad_request (x : Exchange) : Prop :=
  exists err, read (env_of x) = inr err /\ isCloseable err = false.

(** What the engine does for a sequence of requests that cannot be read. *)
Definition failed_reads (p : Proxy) (xs : list Exchange) : list event :=
  flat_map (fun x => fst (readRequest p (env_of x))) xs.

(** The engine's own steps neither clear the secure flag of the session
    nor close the socket. *)
Definition keeps (s : Session) (r : Session * list event * outcome) : Prop :=
  (secure s = true -> secure (fst (fst r)) = true) /\
  filter is_ConnClose (snd (fst r)) = [].

(** *** More sample configurations *)

(** A proxy whose transport fails with [err]. *)
Definition failing_proxy (err : error) : Proxy :=
  {| AllowHTTP := false; ConnectPassthrough := false; WithoutWarning := false;
     ErrorResponse := None;
     ReadTimeout := 0; ReadHeaderTimeout := 0; WriteTimeout := 0;
     CloseAfterReply := false;
     roundTripper := fun _ => inr err;
     mitm := false;
     reqmod := fun req => (req, no_effect);
     resmod := fun res => (res, no_effect) |}.

(** A proxy whose request modifier asks to skip the round trip. *)
Definition skipping_proxy : Proxy :=
  {| AllowHTTP := false; ConnectPassthrough := false; WithoutWarning := false;
     ErrorResponse := None;
     ReadTimeout := 0; ReadHeaderTimeout := 0; WriteTimeout := 0;
     CloseAfterReply := false;
     roundTripper := fun req => inl (NewResponse 500 req);
     mitm := false;
     reqmod := fun req =>
       (req, {| mod_error := None; mod_hijack := false;
                mod_skip_round_trip := true |});
     resmod := fun res => (res, no_effect) |}.

(** Surroundings in which reading the request fails with [err]. *)
Definition failing_read (err : error) : Env :=
  {| read := inr err; remote_addr := "10.0.0.1:4242";
     close_writer := true; closing_on_read := false; closing_on_reply := false;
     dump_error := None; write_error := None; flush_error := None;
     peeked := 0; handshake_error := None; negotiated_h2 := false;
     h2_result := None;
     connect_result := ConnectFailed (ErrorString "unreachable") false |}.

(** Surroundings in which [sample_request] arrives while the proxy is
    closing. *)
Definition closing_env : Env :=
  {| read := inl sample_request; remote_addr := "10.0.0.1:4242";
     close_writer := true; closing_on_read := true; closing_on_reply := true;
     dump_error := None; write_error := None; flush_error := None;
     peeked := 0; handshake_error := None; negotiated_h2 := false;
     h2_result := None;
     connect_result := ConnectFailed (ErrorString "unreachable") false |}.

(** A proxy that intercepts CONNECT. *)
Definition mitm_proxy : Proxy :=
  {| AllowHTTP := false; ConnectPassthrough := false; WithoutWarning := false;
     ErrorResponse := None;
     ReadTimeout := 0; ReadHeaderTimeout := 0; WriteTimeout := 0;
     CloseAfterReply := false;
     roundTripper := fun req => inl (NewResponse 200 req);
     mitm := true;
     reqmod := fun req => (req, no_effect);
     resmod := fun res => (res, no_effect) |}.

Definition connect_request : Request.t :=
  Request.mk "CONNECT" 1 1 false "example.com:443" "example.com:443" "" ""
             false "" [].

(** Surroundings in which a CONNECT arrives and the dial succeeds. *)
Definition tunnel_env : Env :=
  {| read := inl connect_request; remote_addr := "10.0.0.1:4242";
     close_writer := true; closing_on_read := false; closing_on_reply := false;
     dump_error := None; write_error := None; flush_error := None;
     peeked := 0; handshake_error := None; negotiated_h2 := false;
     h2_result := None;
     connect_result := Connected (NewResponse 200 connect_request) true |}.

(** Surroundings in which a CONNECT arrives and the client then starts a
    TLS handshake that succeeds. *)
Definition mitm_env : Env :=
  {| read := inl connect_request; remote_addr := "10.0.0.1:4242";
     close_writer := true; closing_on_read := false; closing_on_reply := false;
     dump_error := None; write_error := None; flush_error := None;
     peeked := 22; handshake_error := None; negotiated_h2 := false;
     h2_result := None;
     connect_result := ConnectFailed (ErrorString "unreachable") false |}.

End proxy_exchange.

(** * Properties *)

Lemma leaves_MultiError (errs : list error) :
  leaves (MultiError errs) = flat_map leaves errs.
Proof.
  simpl. induction errs as [|x r IH]; simpl; [reflexivity|].
  now rewrite IH.
Qed.



(** ** Modifier groups *)
Module fifo_facts.
Import fifo.

Section LoopFacts.
Variables (St M : Type).
Variable run : M -> St -> St * option error.

Lemma run_in_order_app (l1 l2 : list M) (msg : St) :
  run_in_order run (l1 ++ l2) msg =
  let (msg1, r1) := run_in_order run l1 msg in
  let (msg2, r2) := run_in_order run l2 msg1 in
  (msg2, r1 ++ r2).
Proof.
  revert msg. induction l1 as [|m l1 IH]; intros msg; simpl.
  - now destruct (run_in_order run l2 msg).
  - destruct (run m msg) as [msg' r]. rewrite IH.
    destruct (run_in_order run l1 msg') as [msg1 r1].
    now destruct (run_in_order run l2 msg1).
Qed.

Lemma run_in_order_length (l : list M) (msg : St) :
  length (snd (run_in_order run l msg)) = length l.
Proof.
  revert msg. induction l as [|m l IH]; intros msg; simpl; [reflexivity|].
  destruct (run m msg) as [msg' r]. specialize (IH msg').
  destruct (run_in_order run l msg'). simpl in *. now rewrite IH.
Qed.

(** The log of a full in-order run lists every position once. *)
Lemma run_in_order_logged (l : list M) (i : nat) (msg : St) (log : list nat) :
  run_in_order (logged run) (indexed_from i l) (msg, log) =
  let (msg', rs) := run_in_order run l msg in
  ((msg', log ++ seq i (length l)), rs).
Proof.
  revert i msg log. induction l as [|m l IH]; intros i msg log.
  - simpl. now rewrite app_nil_r.
  - unfold indexed_from in *. simpl. unfold logged at 1. simpl.
    destruct (run m msg) as [msg' r]. rewrite IH.
    destruct (run_in_order run l msg') as [msg'' rs].
    now rewrite <- app_assoc.
Qed.

Lemma indexed_from_cons (m : M) (l : list M) (i : nat) :
  indexed_from i (m :: l) = (i, m) :: indexed_from (S i) l.
Proof. reflexivity. Qed.

Lemma indexed_from_app (l1 l2 : list M) (i : nat) :
  indexed_from i (l1 ++ l2) =
  indexed_from i l1 ++ indexed_from (i + length l1) l2.
Proof.
  revert i. induction l1 as [|m l1 IH]; intros i; simpl.
  - now rewrite Nat.add_0_r.
  - unfold indexed_from in *. simpl. rewrite IH. simpl.
    now rewrite Nat.add_succ_r.
Qed.

(** *** aggregateErrors = false *)

(** With nothing collected so far, a prefix without errors is passed
    through and the first error ends the loop. *)
Lemma modify_loop_first_error (pre : list M) (m : M) (post : list M)
      (msg msg_k msg' : St) (outs : list (option error)) (e : error) :
  run_in_order run pre msg = (msg_k, outs) ->
  Forall (fun r => r = None) outs ->
  run m msg_k = (msg', Some e) ->
  modify_loop run false (pre ++ m :: post) None msg = (msg', Some e).
Proof.
  revert msg outs. induction pre as [|p pre IH]; intros msg outs Hrun Hok Hm.
  - simpl in Hrun. injection Hrun as <- <-. simpl. now rewrite Hm.
  - simpl in Hrun. simpl. destruct (run p msg) as [msg1 r] eqn:Hp.
    destruct (run_in_order run pre msg1) as [msg2 rs] eqn:Hpre.
    injection Hrun as <- <-. inversion Hok as [|? ? Hr Hrs]; subst.
    now apply (IH msg1 rs).
Qed.

Lemma modify_loop_no_error (agg : bool) (mods : list M) (msg msg' : St)
      (outs : list (option error)) (merr : option (list error)) :
  run_in_order run mods msg = (msg', outs) ->
  Forall (fun r => r = None) outs ->
  modify_loop run agg mods merr msg = modify_loop run agg [] merr msg'.
Proof.
  revert msg outs. induction mods as [|p mods IH]; intros msg outs Hrun Hok.
  - simpl in Hrun. now injection Hrun as <- <-.
  - simpl in Hrun. cbn [modify_loop].
    destruct (run p msg) as [msg1 r] eqn:Hp.
    destruct (run_in_order run mods msg1) as [msg2 rs] eqn:Hmods.
    injection Hrun as <- <-. inversion Hok as [|? ? Hr Hrs]; subst.
    now apply (IH msg1 rs).
Qed.

(** *** aggregateErrors = true *)

(** Every entry runs; the errors join those collected before, in order. *)
Lemma modify_loop_aggregate (mods : list M) (merr : option (list error))
      (msg : St) :
  modify_loop run true mods merr msg =
  let (msg', outs) := run_in_order run mods msg in
  (msg', merr_result (merr_list merr ++ errors_of outs)).
Proof.
  revert merr msg. induction mods as [|p mods IH]; intros merr msg.
  - simpl. rewrite app_nil_r. destruct merr as [[|x errs]|]; reflexivity.
  - cbn [modify_loop run_in_order]. destruct (run p msg) as [msg1 [e|]].
    + rewrite IH. destruct (run_in_order run mods msg1) as [msg2 rs].
      unfold Add, NewMultiError. simpl.
      destruct merr as [errs|]; simpl; [now rewrite <- app_assoc|reflexivity].
    + rewrite IH. now destruct (run_in_order run mods msg1) as [msg2 rs].
Qed.

End LoopFacts.

Section Executed.
Variables (St M : Type).
Variable run : M -> St -> St * option error.

(** *** Which entries are invoked *)

Lemma executed_first_error (pre : list M) (m : M) (post : list M)
      (msg msg_k msg' : St) (outs : list (option error)) (e : error) :
  run_in_order run pre msg = (msg_k, outs) ->
  Forall (fun r => r = None) outs ->
  run m msg_k = (msg', Some e) ->
  executed run false (pre ++ m :: post) msg = seq 0 (S (length pre)).
Proof.
  intros Hrun Hok Hm. unfold executed.
  rewrite indexed_from_app, indexed_from_cons. simpl Nat.add.
  rewrite (@modify_loop_first_error _ _ (logged run) _ _ _ _
             (msg_k, seq 0 (length pre))
             (msg', seq 0 (length pre) ++ [length pre]) outs e).
  - cbn [fst snd]. now rewrite seq_S.
  - rewrite run_in_order_logged, Hrun. reflexivity.
  - assumption.
  - unfold logged. simpl. now rewrite Hm.
Qed.

Lemma executed_no_error (agg : bool) (mods : list M) (msg msg' : St)
      (outs : list (option error)) :
  run_in_order run mods msg = (msg', outs) ->
  Forall (fun r => r = None) outs ->
  executed run agg mods msg = seq 0 (length mods).
Proof.
  intros Hrun Hok. unfold executed.
  erewrite modify_loop_no_error with (msg' := (msg', seq 0 (length mods)))
                                     (outs := outs).
  - reflexivity.
  - rewrite run_in_order_logged, Hrun. reflexivity.
  - assumption.
Qed.

Lemma executed_aggregate (mods : list M) (msg : St) :
  executed run true mods msg = seq 0 (length mods).
Proof.
  unfold executed. rewrite modify_loop_aggregate, run_in_order_logged.
  now destruct (run_in_order run mods msg).
Qed.
End Executed.

(** *** Replacing entries by sequences of entries *)
Section FlatMap.
Variables (St M : Type).
Variable run : M -> St -> St * option error.
Variable f : M -> list M.

Lemma err_equiv_refl (r : option error) : err_equiv r r.
Proof. now destruct r. Qed.

Lemma outcome_equiv_refl (a : St * option error) : outcome_equiv a a.
Proof. split; [reflexivity | apply err_equiv_refl]. Qed.

Lemma errs_equiv_app (a a' b b' : list error) :
  errs_equiv a b -> errs_equiv a' b' -> errs_equiv (a ++ a') (b ++ b').
Proof.
  intros [[H1 H2] H3] [[H4 H5] H6]. split.
  - split; intros H; apply app_eq_nil in H as [Ha Hb].
    + now rewrite (H1 Ha), (H4 Hb).
    + now rewrite (H2 Ha), (H5 Hb).
  - rewrite !flat_map_app. congruence.
Qed.

Lemma errs_equiv_merr_result (a b : list error) :
  errs_equiv a b -> err_equiv (merr_result a) (merr_result b).
Proof.
  intros [[H1 H2] H3]. destruct a as [|x a], b as [|y b]; simpl.
  - exact I.
  - now specialize (H1 eq_refl).
  - now specialize (H2 eq_refl).
  - change (leaves (MultiError (x :: a)) = leaves (MultiError (y :: b))).
    now rewrite !leaves_MultiError.
Qed.

Lemma merr_result_equiv_inv (errs : list error) (r : option error) :
  err_equiv (merr_result errs) r -> errs_equiv errs (opt_list r).
Proof.
  destruct errs as [|x errs], r as [e|]; simpl; try contradiction.
  - intros _. now split.
  - intros H.
    change (leaves (MultiError (x :: errs)) = leaves e) in H.
    rewrite leaves_MultiError in H. split.
    + split; discriminate.
    + simpl. now rewrite app_nil_r.
Qed.

Lemma err_equiv_opt_list (a b : option error) :
  err_equiv a b -> errs_equiv (opt_list a) (opt_list b).
Proof.
  destruct a as [x|], b as [y|]; simpl; try contradiction; intros H.
  - split; [split; discriminate | simpl; now rewrite H].
  - now split.
Qed.

Lemma errors_of_app (a b : list (option error)) :
  errors_of (a ++ b) = errors_of a ++ errors_of b.
Proof.
  induction a as [|[e|] a IH]; simpl; [reflexivity| |assumption].
  now rewrite IH.
Qed.

Lemma modify_loop_single (m : M) (msg : St) :
  modify_loop run false [m] None msg = run m msg.
Proof. simpl. now destruct (run m msg) as [msg' [e|]]. Qed.

Lemma run_in_order_single (m : M) (msg : St) :
  run_in_order run [m] msg = (fst (run m msg), [snd (run m msg)]).
Proof. simpl. now destruct (run m msg). Qed.

(** Without aggregation, a list followed by another stops in the first
    if the first returns an error. *)
Lemma modify_loop_false_app (l1 l2 : list M) (msg : St) :
  modify_loop run false (l1 ++ l2) None msg =
  match modify_loop run false l1 None msg with
  | (msg1, Some e) => (msg1, Some e)
  | (msg1, None) => modify_loop run false l2 None msg1
  end.
Proof.
  revert msg. induction l1 as [|m l1 IH]; intros msg; simpl; [reflexivity|].
  destruct (run m msg) as [msg' [e|]]; [reflexivity | apply IH].
Qed.

Lemma modify_loop_false_flat_map (mods : list M) :
  (forall m, In m mods -> forall msg,
        outcome_equiv (modify_loop run false (f m) None msg) (run m msg)) ->
  forall msg,
    outcome_equiv (modify_loop run false (flat_map f mods) None msg)
                  (modify_loop run false mods None msg).
Proof.
  induction mods as [|m mods IH]; intros Hf msg.
  - apply outcome_equiv_refl.
  - cbn [flat_map]. rewrite modify_loop_false_app.
    pose proof (Hf m (or_introl eq_refl) msg) as [Hst Herr].
    cbn [modify_loop].
    destruct (modify_loop run false (f m) None msg) as [x1 xr].
    destruct (run m msg) as [msg1 r]. simpl in Hst, Herr. subst x1.
    destruct xr as [e'|], r as [e|]; simpl in Herr; try contradiction.
    + now split.
    + apply IH. intros m' Hin. apply Hf. now right.
Qed.

Lemma run_in_order_flat_map (mods : list M) :
  (forall m, In m mods -> forall msg,
        fst (run_in_order run (f m) msg) = fst (run m msg) /\
        errs_equiv (errors_of (snd (run_in_order run (f m) msg)))
                   (opt_list (snd (run m msg)))) ->
  forall msg,
    fst (run_in_order run (flat_map f mods) msg) =
    fst (run_in_order run mods msg) /\
    errs_equiv (errors_of (snd (run_in_order run (flat_map f mods) msg)))
               (errors_of (snd (run_in_order run mods msg))).
Proof.
  induction mods as [|m mods IH]; intros Hf msg.
  - simpl. repeat split; auto.
  - cbn [flat_map]. rewrite run_in_order_app. cbn [run_in_order].
    pose proof (Hf m (or_introl eq_refl) msg) as [Hst Herr].
    destruct (run_in_order run (f m) msg) as [x1 xr].
    destruct (run m msg) as [msg1 r]. simpl in Hst, Herr. subst x1.
    assert (Hrest : forall m', In m' mods -> forall msg0,
               fst (run_in_order run (f m') msg0) = fst (run m' msg0) /\
               errs_equiv (errors_of (snd (run_in_order run (f m') msg0)))
                          (opt_list (snd (run m' msg0))))
      by (intros m' Hin; apply Hf; now right).
    destruct (IH Hrest msg1) as [Hst' Herr'].
    destruct (run_in_order run (flat_map f mods) msg1) as [y1 yr].
    destruct (run_in_order run mods msg1) as [z1 zr].
    cbn [fst snd] in *. split; [assumption|].
    rewrite errors_of_app.
    destruct r as [e|]; exact (errs_equiv_app Herr Herr').
Qed.

Lemma modify_loop_true_flat_map (mods : list M) :
  (forall m, In m mods -> forall msg,
        fst (run_in_order run (f m) msg) = fst (run m msg) /\
        errs_equiv (errors_of (snd (run_in_order run (f m) msg)))
                   (opt_list (snd (run m msg)))) ->
  forall msg,
    outcome_equiv (modify_loop run true (flat_map f mods) None msg)
                  (modify_loop run true mods None msg).
Proof.
  intros Hf msg. rewrite !modify_loop_aggregate.
  destruct (run_in_order_flat_map mods Hf msg) as [Hst Herr].
  destruct (run_in_order run (flat_map f mods) msg) as [y1 yr].
  destruct (run_in_order run mods msg) as [z1 zr].
  simpl in *. split; [assumption|]. now apply errs_equiv_merr_result.
Qed.
End FlatMap.

Section GroupFacts.
Variables (Request Response : Type).
Abbreviation Modifier := (Modifier Request Response).
Abbreviation group := (group Request Response).
Abbreviation mreq := (@Modifier_ModifyRequest Request Response).
Abbreviation mres := (@Modifier_ModifyResponse Request Response).

Lemma group_ModifyRequest_eq (g : group) (req : Request) :
  group_ModifyRequest g req =
  modify_loop mreq (aggregateErrors g) (reqmods g) None req.
Proof. now destruct g. Qed.

Lemma group_ModifyResponse_eq (g : group) (res : Response) :
  group_ModifyResponse g res =
  modify_loop mres (aggregateErrors g) (resmods g) None res.
Proof. now destruct g. Qed.

(** C1. In a group that does not aggregate errors, if entry [k] (the one
    after the entries [pre]) is the first whose ModifyRequest (resp.
    ModifyResponse) returns an error, the group returns exactly that
    error, with the message as entry [k] left it, and the entries invoked
    are those at positions [0..k]: none after [k]. If no entry returns an
    error, every entry is invoked, in insertion order, and the group
    returns nil. *)
Theorem group_stops_at_first_error (g : group) :
  aggregateErrors g = false ->
  (forall pre m post req req_k outs req' e,
      reqmods g = pre ++ m :: post ->
      run_in_order mreq pre req = (req_k, outs) ->
      Forall (fun r => r = None) outs ->
      mreq m req_k = (req', Some e) ->
      group_ModifyRequest g req = (req', Some e) /\
      executed_requests g req = seq 0 (S (length pre)))
  /\ (forall req req' outs,
      run_in_order mreq (reqmods g) req = (req', outs) ->
      Forall (fun r => r = None) outs ->
      group_ModifyRequest g req = (req', None) /\
      executed_requests g req = seq 0 (length (reqmods g)))
  /\ (forall pre m post res res_k outs res' e,
      resmods g = pre ++ m :: post ->
      run_in_order mres pre res = (res_k, outs) ->
      Forall (fun r => r = None) outs ->
      mres m res_k = (res', Some e) ->
      group_ModifyResponse g res = (res', Some e) /\
      executed_responses g res = seq 0 (S (length pre)))
  /\ (forall res res' outs,
      run_in_order mres (resmods g) res = (res', outs) ->
      Forall (fun r => r = None) outs ->
      group_ModifyResponse g res = (res', None) /\
      executed_responses g res = seq 0 (length (resmods g))).
Proof.
  intros Hagg. repeat split.
  - rewrite group_ModifyRequest_eq, Hagg, H.
    eapply modify_loop_first_error; eassumption.
  - unfold executed_requests. rewrite Hagg, H.
    eapply executed_first_error; eassumption.
  - rewrite group_ModifyRequest_eq.
    erewrite modify_loop_no_error by eassumption. reflexivity.
  - unfold executed_requests. eapply executed_no_error; eassumption.
  - rewrite group_ModifyResponse_eq, Hagg, H.
    eapply modify_loop_first_error; eassumption.
  - unfold executed_responses. rewrite Hagg, H.
    eapply executed_first_error; eassumption.
  - rewrite group_ModifyResponse_eq.
    erewrite modify_loop_no_error by eassumption. reflexivity.
  - unfold executed_responses. eapply executed_no_error; eassumption.
Qed.

(** C2. In a group that aggregates errors, ModifyRequest (resp.
    ModifyResponse) invokes every entry, in insertion order, whatever the
    entries before returned; it returns nil when no entry returned an
    error, and otherwise a multi-error whose members are the errors the
    entries returned, in insertion order. *)
Theorem group_aggregates_errors (g : group) :
  aggregateErrors g = true ->
  (forall req,
      group_ModifyRequest g req =
        (fst (run_in_order mreq (reqmods g) req),
         match errors_of (snd (run_in_order mreq (reqmods g) req)) with
         | [] => None
         | errs => Some (MultiError errs)
         end) /\
      executed_requests g req = seq 0 (length (reqmods g)))
  /\ (forall res,
      group_ModifyResponse g res =
        (fst (run_in_order mres (resmods g) res),
         match errors_of (snd (run_in_order mres (resmods g) res)) with
         | [] => None
         | errs => Some (MultiError errs)
         end) /\
      executed_responses g res = seq 0 (length (resmods g))).
Proof.
  intros Hagg. split; intros msg; split.
  - rewrite group_ModifyRequest_eq, Hagg, modify_loop_aggregate.
    destruct (run_in_order mreq (reqmods g) msg) as [msg' outs]. simpl.
    now destruct (errors_of outs).
  - unfold executed_requests. rewrite Hagg. apply executed_aggregate.
  - rewrite group_ModifyResponse_eq, Hagg, modify_loop_aggregate.
    destruct (run_in_order mres (resmods g) msg) as [msg' outs]. simpl.
    now destruct (errors_of outs).
  - unfold executed_responses. rewrite Hagg. apply executed_aggregate.
Qed.
End GroupFacts.

Section ToImmutableFacts.
Variables (Request Response : Type).
Abbreviation Modifier := (Modifier Request Response).
Abbreviation group := (group Request Response).
Abbreviation mreq := (@Modifier_ModifyRequest Request Response).
Abbreviation mres := (@Modifier_ModifyResponse Request Response).

Lemma ToImmutable_aggregateErrors (g : group) :
  aggregateErrors (ToImmutable g) = aggregateErrors g.
Proof. now destruct g. Qed.

(** The entries at the req side of a snapshot, entry by entry. *)
Lemma ToImmutable_reqmods (g : group) :
  reqmods (ToImmutable g) =
  flat_map (snapshot_request_entry (aggregateErrors g)) (reqmods g).
Proof.
  destruct g as [rq rs agg]. cbn [aggregateErrors].
  assert (H : forall mods acc,
    (fix loop (mods acc : list Modifier) {struct mods} : list Modifier :=
       match mods with
       | [] => acc
       | m :: rest =>
           match m with
           | GroupPtr mm =>
               if Bool.eqb agg (aggregateErrors (ToImmutable mm))
               then loop rest (acc ++ reqmods (ToImmutable mm))
               else loop rest (acc ++ [ImmutableGroupPtr (ToImmutable mm)])
           | _ => loop rest (acc ++ [m])
           end
       end) mods acc =
    acc ++ flat_map (snapshot_request_entry agg) mods).
  { induction mods as [|m mods IH]; intros acc.
    - now rewrite app_nil_r.
    - destruct m as [fq fs|mm|mm]; cbn [flat_map snapshot_request_entry].
      + rewrite IH. now rewrite <- app_assoc.
      + rewrite ToImmutable_aggregateErrors.
        destruct (Bool.eqb agg (aggregateErrors mm));
          rewrite IH; now rewrite <- app_assoc.
      + rewrite IH. now rewrite <- app_assoc. }
  exact (H rq []).
Qed.

(** The entries at the res side of a snapshot, entry by entry. *)
Lemma ToImmutable_resmods (g : group) :
  resmods (ToImmutable g) =
  flat_map (snapshot_response_entry (aggregateErrors g)) (resmods g).
Proof.
  destruct g as [rq rs agg]. cbn [aggregateErrors].
  assert (H : forall mods acc,
    (fix loop (mods acc : list Modifier) {struct mods} : list Modifier :=
       match mods with
       | [] => acc
       | m :: rest =>
           match m with
           | GroupPtr mm =>
               if Bool.eqb agg (aggregateErrors (ToImmutable mm))
               then loop rest (acc ++ resmods (ToImmutable mm))
               else loop rest (acc ++ [ImmutableGroupPtr (ToImmutable mm)])
           | _ => loop rest (acc ++ [m])
           end
       end) mods acc =
    acc ++ flat_map (snapshot_response_entry agg) mods).
  { induction mods as [|m mods IH]; intros acc.
    - now rewrite app_nil_r.
    - destruct m as [fq fs|mm|mm]; cbn [flat_map snapshot_response_entry].
      + rewrite IH. now rewrite <- app_assoc.
      + rewrite ToImmutable_aggregateErrors.
        destruct (Bool.eqb agg (aggregateErrors mm));
          rewrite IH; now rewrite <- app_assoc.
      + rewrite IH. now rewrite <- app_assoc. }
  exact (H rs []).
Qed.
Lemma sum_sizes (l : list Modifier) :
  (fix sum (l : list Modifier) : nat :=
     match l with [] => 0 | m :: r => Modifier_size m + sum r end) l =
  list_sum (map (@Modifier_size Request Response) l).
Proof. induction l as [|m l IH]; simpl; [reflexivity | now rewrite IH]. Qed.

Lemma group_size_eq (rq rs : list Modifier) (a : bool) :
  group_size (mk_group rq rs a) =
  S (list_sum (map (@Modifier_size Request Response) rq)
     + list_sum (map (@Modifier_size Request Response) rs)).
Proof. cbn [group_size]. now rewrite !sum_sizes. Qed.

Lemma In_size (m : Modifier) (l : list Modifier) :
  In m l ->
  Modifier_size m <= list_sum (map (@Modifier_size Request Response) l).
Proof.
  induction l as [|x l IH]; simpl; [contradiction|].
  intros [-> | Hin]; [lia | specialize (IH Hin); lia].
Qed.

Lemma child_smaller_req (g c : group) :
  In (GroupPtr c) (reqmods g) -> group_size c < group_size g.
Proof.
  destruct g as [rq rs a]. cbn [reqmods]. intros Hin.
  apply In_size in Hin. rewrite group_size_eq.
  change (Modifier_size (GroupPtr c)) with (S (group_size c)) in Hin. lia.
Qed.

(** An inlined sequence is never the nested group itself. *)
Lemma reqmods_not_nested (g : group) : reqmods g <> [ImmutableGroupPtr g].
Proof.
  intros H. assert (Hin : In (ImmutableGroupPtr g) (reqmods g))
    by (rewrite H; now left).
  destruct g as [rq rs a]. cbn [reqmods] in Hin.
  apply In_size in Hin.
  change (Modifier_size (ImmutableGroupPtr (mk_group rq rs a)))
    with (S (group_size (mk_group rq rs a))) in Hin.
  rewrite group_size_eq in Hin. lia.
Qed.

Lemma snapshot_request_entry_false (m : Modifier) :
  (forall c, m = GroupPtr c -> forall msg,
        outcome_equiv (group_ModifyRequest (ToImmutable c) msg)
                      (group_ModifyRequest c msg)) ->
  forall msg,
    outcome_equiv
      (modify_loop mreq false (snapshot_request_entry false m) None msg)
      (mreq m msg).
Proof.
  intros IH msg. destruct m as [fq fs|c|c]; cbn [snapshot_request_entry].
  - rewrite modify_loop_single. apply outcome_equiv_refl.
  - destruct (aggregateErrors c) eqn:Hc; cbn [Bool.eqb].
    + rewrite modify_loop_single. exact (IH c eq_refl msg).
    + pose proof (IH c eq_refl msg) as H.
      rewrite group_ModifyRequest_eq, ToImmutable_aggregateErrors, Hc in H.
      exact H.
  - rewrite modify_loop_single. apply outcome_equiv_refl.
Qed.

Lemma snapshot_request_entry_true (m : Modifier) :
  (forall c, m = GroupPtr c -> forall msg,
        outcome_equiv (group_ModifyRequest (ToImmutable c) msg)
                      (group_ModifyRequest c msg)) ->
  forall msg,
    fst (run_in_order mreq (snapshot_request_entry true m) msg) =
    fst (mreq m msg) /\
    errs_equiv
      (errors_of (snd (run_in_order mreq (snapshot_request_entry true m) msg)))
      (opt_list (snd (mreq m msg))).
Proof.
  intros IH msg. destruct m as [fq fs|c|c]; cbn [snapshot_request_entry].
  - rewrite run_in_order_single. cbn [fst snd]. split; [reflexivity|].
    apply err_equiv_opt_list, err_equiv_refl.
  - destruct (IH c eq_refl msg) as [Hst Herr].
    destruct (aggregateErrors c) eqn:Hc; cbn [Bool.eqb].
    + rewrite group_ModifyRequest_eq, ToImmutable_aggregateErrors, Hc,
        modify_loop_aggregate in Hst, Herr.
      destruct (run_in_order mreq (reqmods (ToImmutable c)) msg) as [x1 xr].
      cbn [fst snd merr_list app] in *. split; [exact Hst|].
      now apply merr_result_equiv_inv.
    + rewrite run_in_order_single. cbn [fst snd]. split; [exact Hst|].
      now apply err_equiv_opt_list.
  - rewrite run_in_order_single. cbn [fst snd]. split; [reflexivity|].
    apply err_equiv_opt_list, err_equiv_refl.
Qed.

Lemma child_smaller_res (g c : group) :
  In (GroupPtr c) (resmods g) -> group_size c < group_size g.
Proof.
  destruct g as [rq rs a]. cbn [resmods]. intros Hin.
  apply In_size in Hin. rewrite group_size_eq.
  change (Modifier_size (GroupPtr c)) with (S (group_size c)) in Hin. lia.
Qed.

(** An inlined sequence is never the nested group itself. *)
Lemma resmods_not_nested (g : group) : resmods g <> [ImmutableGroupPtr g].
Proof.
  intros H. assert (Hin : In (ImmutableGroupPtr g) (resmods g))
    by (rewrite H; now left).
  destruct g as [rq rs a]. cbn [resmods] in Hin.
  apply In_size in Hin.
  change (Modifier_size (ImmutableGroupPtr (mk_group rq rs a)))
    with (S (group_size (mk_group rq rs a))) in Hin.
  rewrite group_size_eq in Hin. lia.
Qed.

Lemma snapshot_response_entry_false (m : Modifier) :
  (forall c, m = GroupPtr c -> forall msg,
        outcome_equiv (group_ModifyResponse (ToImmutable c) msg)
                      (group_ModifyResponse c msg)) ->
  forall msg,
    outcome_equiv
      (modify_loop mres false (snapshot_response_entry false m) None msg)
      (mres m msg).
Proof.
  intros IH msg. destruct m as [fq fs|c|c]; cbn [snapshot_response_entry].
  - rewrite modify_loop_single. apply outcome_equiv_refl.
  - destruct (aggregateErrors c) eqn:Hc; cbn [Bool.eqb].
    + rewrite modify_loop_single. exact (IH c eq_refl msg).
    + pose proof (IH c eq_refl msg) as H.
      rewrite group_ModifyResponse_eq, ToImmutable_aggregateErrors, Hc in H.
      exact H.
  - rewrite modify_loop_single. apply outcome_equiv_refl.
Qed.

Lemma snapshot_response_entry_true (m : Modifier) :
  (forall c, m = GroupPtr c -> forall msg,
        outcome_equiv (group_ModifyResponse (ToImmutable c) msg)
                      (group_ModifyResponse c msg)) ->
  forall msg,
    fst (run_in_order mres (snapshot_response_entry true m) msg) =
    fst (mres m msg) /\
    errs_equiv
      (errors_of (snd (run_in_order mres (snapshot_response_entry true m) msg)))
      (opt_list (snd (mres m msg))).
Proof.
  intros IH msg. destruct m as [fq fs|c|c]; cbn [snapshot_response_entry].
  - rewrite run_in_order_single. cbn [fst snd]. split; [reflexivity|].
    apply err_equiv_opt_list, err_equiv_refl.
  - destruct (IH c eq_refl msg) as [Hst Herr].
    destruct (aggregateErrors c) eqn:Hc; cbn [Bool.eqb].
    + rewrite group_ModifyResponse_eq, ToImmutable_aggregateErrors, Hc,
        modify_loop_aggregate in Hst, Herr.
      destruct (run_in_order mres (resmods (ToImmutable c)) msg) as [x1 xr].
      cbn [fst snd merr_list app] in *. split; [exact Hst|].
      now apply merr_result_equiv_inv.
    + rewrite run_in_order_single. cbn [fst snd]. split; [exact Hst|].
      now apply err_equiv_opt_list.
  - rewrite run_in_order_single. cbn [fst snd]. split; [reflexivity|].
    apply err_equiv_opt_list, err_equiv_refl.
Qed.

(** A snapshot behaves as the group it was taken from. *)
Lemma ToImmutable_preserves_aux (n : nat) :
  forall g : group, group_size g <= n ->
    (forall req, outcome_equiv (group_ModifyRequest (ToImmutable g) req)
                               (group_ModifyRequest g req)) /\
    (forall res, outcome_equiv (group_ModifyResponse (ToImmutable g) res)
                               (group_ModifyResponse g res)).
Proof.
  induction n as [|n IH]; intros g Hn.
  - destruct g as [rq rs a]. rewrite group_size_eq in Hn. lia.
  - split; intros msg.
    + rewrite !group_ModifyRequest_eq, ToImmutable_aggregateErrors,
        ToImmutable_reqmods.
      destruct (aggregateErrors g).
      * apply modify_loop_true_flat_map. intros m Hin.
        apply snapshot_request_entry_true. intros c ->.
        apply IH. apply child_smaller_req in Hin. lia.
      * apply modify_loop_false_flat_map. intros m Hin.
        apply snapshot_request_entry_false. intros c ->.
        apply IH. apply child_smaller_req in Hin. lia.
    + rewrite !group_ModifyResponse_eq, ToImmutable_aggregateErrors,
        ToImmutable_resmods.
      destruct (aggregateErrors g).
      * apply modify_loop_true_flat_map. intros m Hin.
        apply snapshot_response_entry_true. intros c ->.
        apply IH. apply child_smaller_res in Hin. lia.
      * apply modify_loop_false_flat_map. intros m Hin.
        apply snapshot_response_entry_false. intros c ->.
        apply IH. apply child_smaller_res in Hin. lia.
Qed.

Lemma ToImmutable_preserves (g : group) :
  (forall req, outcome_equiv (group_ModifyRequest (ToImmutable g) req)
                             (group_ModifyRequest g req)) /\
  (forall res, outcome_equiv (group_ModifyResponse (ToImmutable g) res)
                             (group_ModifyResponse g res)).
Proof. exact (@ToImmutable_preserves_aux (group_size g) g (le_n _)). Qed.
(** C3. [ToImmutable] puts, in the place of a nested [Group] [c], the
    entry sequence of [c]'s snapshot when [c]'s aggregate-errors flag
    equals the parent's, and the snapshot itself as one nested immutable
    group when the flags differ (the two are never the same list); the
    entries around it are converted independently. The snapshot's
    ModifyRequest and ModifyResponse leave the message as the group's do,
    with an equivalent error outcome: both nil, or both errors carrying
    the same primitive errors in the same order. *)
Theorem ToImmutable_inlines_iff_flags_match_and_preserves :
  (forall (pre post rs : list Modifier) (c : group) (agg : bool),
      reqmods (ToImmutable (mk_group (pre ++ GroupPtr c :: post) rs agg)) =
      reqmods (ToImmutable (mk_group pre rs agg))
      ++ (if Bool.eqb (aggregateErrors c) agg
          then reqmods (ToImmutable c)
          else [ImmutableGroupPtr (ToImmutable c)])
      ++ reqmods (ToImmutable (mk_group post rs agg)))
  /\ (forall (pre post rq : list Modifier) (c : group) (agg : bool),
      resmods (ToImmutable (mk_group rq (pre ++ GroupPtr c :: post) agg)) =
      resmods (ToImmutable (mk_group rq pre agg))
      ++ (if Bool.eqb (aggregateErrors c) agg
          then resmods (ToImmutable c)
          else [ImmutableGroupPtr (ToImmutable c)])
      ++ resmods (ToImmutable (mk_group rq post agg)))
  /\ (forall c : group,
      reqmods (ToImmutable c) <> [ImmutableGroupPtr (ToImmutable c)] /\
      resmods (ToImmutable c) <> [ImmutableGroupPtr (ToImmutable c)])
  /\ (forall (g : group) (req : Request),
      fst (group_ModifyRequest (ToImmutable g) req) =
      fst (group_ModifyRequest g req) /\
      err_equiv (snd (group_ModifyRequest (ToImmutable g) req))
                (snd (group_ModifyRequest g req)))
  /\ (forall (g : group) (res : Response),
      fst (group_ModifyResponse (ToImmutable g) res) =
      fst (group_ModifyResponse g res) /\
      err_equiv (snd (group_ModifyResponse (ToImmutable g) res))
                (snd (group_ModifyResponse g res))).
Proof.
  split; [|split; [|split; [|split]]].
  - intros pre post rs c agg.
    rewrite (ToImmutable_reqmods (mk_group (pre ++ GroupPtr c :: post) rs agg)),
      (ToImmutable_reqmods (mk_group pre rs agg)),
      (ToImmutable_reqmods (mk_group post rs agg)).
    cbn [reqmods aggregateErrors]. rewrite flat_map_app.
    cbn [flat_map snapshot_request_entry].
    destruct agg, (aggregateErrors c); reflexivity.
  - intros pre post rq c agg.
    rewrite (ToImmutable_resmods (mk_group rq (pre ++ GroupPtr c :: post) agg)),
      (ToImmutable_resmods (mk_group rq pre agg)),
      (ToImmutable_resmods (mk_group rq post agg)).
    cbn [resmods aggregateErrors]. rewrite flat_map_app.
    cbn [flat_map snapshot_response_entry].
    destruct agg, (aggregateErrors c); reflexivity.
  - intros c. split; [apply reqmods_not_nested | apply resmods_not_nested].
  - intros g req. exact (proj1 (ToImmutable_preserves g) req).
  - intros g res. exact (proj2 (ToImmutable_preserves g) res).
Qed.
End ToImmutableFacts.

Example ToImmutable_nested_example :
  let e := Func (fun r : nat => (r + 1, Some boom)) (fun r : nat => (r, None)) in
  ToImmutable nested_example =
    mk_group [ImmutableGroupPtr (mk_group [e; e] [] true); e; e] [] false /\
  group_ModifyRequest nested_example 0 = (2, Some (MultiError [boom; boom])) /\
  group_ModifyRequest (ToImmutable nested_example) 0 =
    (2, Some (MultiError [boom; boom])).
Proof. repeat split. Qed.

Lemma group_stops_at_first_error_witness :
  aggregateErrors (counters false) = false /\
  (group_ModifyRequest (counters false) 0 = (11, Some boom) /\
   executed_requests (counters false) 0 = [0; 1]) /\
  (group_ModifyResponse (counters false) 0 = (22, Some bang) /\
   executed_responses (counters false) 0 = [0; 1]) /\
  (group_ModifyRequest (mk_group [] [] false : group nat nat) 7 = (7, None) /\
   executed_requests (mk_group [] [] false : group nat nat) 7 = []).
Proof.
  split; [reflexivity|].
  destruct (group_stops_at_first_error (counters false) eq_refl)
    as (Hreq & _ & Hres & _).
  destruct (group_stops_at_first_error (mk_group [] [] false : group nat nat)
              eq_refl) as (_ & Hnone & _ & _).
  split; [|split].
  - apply (Hreq [Func (fun r : nat => (r + 1, None))
                      (fun r : nat => (r + 2, None))]
                (Func (fun r : nat => (r + 10, Some boom))
                      (fun r : nat => (r + 20, Some bang)))
                [Func (fun r : nat => (r + 100, None))
                      (fun r : nat => (r + 200, None))]
                0 1 [None] 11 boom);
      [reflexivity | reflexivity | repeat constructor | reflexivity].
  - apply (Hres [Func (fun r : nat => (r + 1, None))
                      (fun r : nat => (r + 2, None))]
                (Func (fun r : nat => (r + 10, Some boom))
                      (fun r : nat => (r + 20, Some bang)))
                [Func (fun r : nat => (r + 100, None))
                      (fun r : nat => (r + 200, None))]
                0 2 [None] 22 bang);
      [reflexivity | reflexivity | repeat constructor | reflexivity].
  - apply (Hnone 7 7 []); [reflexivity | constructor].
Defined.

Lemma group_aggregates_errors_witness :
  aggregateErrors (counters true) = true /\
  group_ModifyRequest (counters true) 0 = (111, Some (MultiError [boom; bang])) /\
  executed_requests (counters true) 0 = [0; 1; 2] /\
  group_ModifyResponse (counters true) 0 = (222, Some (MultiError [bang])) /\
  executed_responses (counters true) 0 = [0; 1; 2].
Proof.
  split; [reflexivity|].
  destruct (group_aggregates_errors (counters true) eq_refl) as (Hreq & Hres).
  destruct (Hreq 0) as (H1 & H2). destruct (Hres 0) as (H3 & H4).
  repeat split; assumption.
Defined.

End fifo_facts.

(** ** The instrumented connection *)
Module connmetric_facts.
Import connmetric.

(** No call stores an error while the pointer is nil: the only [Store] is
    behind the dereference of what [Load] returned. *)
Lemma step_error_nil (ic : InstrumentedConn) (c : call) :
  error_ ic = None -> error_ (fst (fst (step ic c))) = None.
Proof.
  intros H. destruct c as [n [e|]|n [e|]|now cerr]; simpl.
  - unfold Read, record_error. now rewrite H.
  - assumption.
  - unfold Write, record_error. now rewrite H.
  - assumption.
  - unfold Close, close. destruct (closeOnce ic); simpl; [assumption|].
    now rewrite H.
Qed.

Lemma step_no_stats (ic : InstrumentedConn) (c : call) :
  error_ ic = None -> filter is_RecordStats (snd (fst (step ic c))) = [].
Proof.
  intros H. destruct c as [n [e|]|n [e|]|now cerr]; simpl.
  - unfold Read, record_error. now rewrite H.
  - reflexivity.
  - unfold Write, record_error. now rewrite H.
  - reflexivity.
  - unfold Close, close. destruct (closeOnce ic); simpl; [reflexivity|].
    now rewrite H.
Qed.

Lemma exec_from_nil (cs : list call) :
  forall ic, error_ ic = None ->
    error_ (fst (exec ic cs)) = None /\
    filter is_RecordStats (snd (exec ic cs)) = [].
Proof.
  induction cs as [|c cs IH]; intros ic H; simpl; [now split|].
  pose proof (step_error_nil ic c H) as H1.
  pose proof (step_no_stats ic c H) as H2.
  destruct (step ic c) as [[ic1 evs] r]. simpl in H1, H2.
  destruct (IH ic1 H1) as [H3 H4].
  destruct (exec ic1 cs) as [ic2 evs']. simpl in *.
  split; [assumption|]. now rewrite filter_app, H2, H4.
Qed.

(** In every state a connection made by [NewInstrumentedConn] reaches, the
    error pointer is still nil. *)
Lemma reachable_error_nil (remote : string) (now : Z) (cs : list call) :
  error_ (fst (exec (NewInstrumentedConn remote now) cs)) = None.
Proof. now apply exec_from_nil. Qed.

(** The inner [Close] is forwarded at most once, whatever the calls. *)
Lemma inner_Close_at_most_once (cs : list call) :
  forall ic,
    length (filter is_Conn_Close (snd (exec ic cs)))
    <= (if closeOnce ic then 0 else 1) /\
    (closeOnce ic = true -> closeOnce (fst (exec ic cs)) = true).
Proof.
  induction cs as [|c cs IH]; intros ic; simpl.
  - split; [destruct (closeOnce ic); simpl; lia | auto].
  - destruct c as [n err|n err|now cerr]; simpl.
    + unfold Read. destruct (record_error ic err) as [ic1|] eqn:E.
      * assert (Hc : closeOnce ic1 = closeOnce ic).
        { unfold record_error in E. destruct err; [|now injection E as <-].
          destruct (error_ ic) as [[x|]|]; try discriminate;
            now injection E as <-. }
        match goal with |- context [exec ?i cs] =>
          specialize (IH i); destruct (exec i cs) as [ic2 evs'] end.
        simpl in *. rewrite Hc in IH. exact IH.
      * specialize (IH ic). destruct (exec ic cs). simpl in *. exact IH.
    + unfold Write. destruct (record_error ic err) as [ic1|] eqn:E.
      * assert (Hc : closeOnce ic1 = closeOnce ic).
        { unfold record_error in E. destruct err; [|now injection E as <-].
          destruct (error_ ic) as [[x|]|]; try discriminate;
            now injection E as <-. }
        match goal with |- context [exec ?i cs] =>
          specialize (IH i); destruct (exec i cs) as [ic2 evs'] end.
        simpl in *. rewrite Hc in IH. exact IH.
      * specialize (IH ic). destruct (exec ic cs). simpl in *. exact IH.
    + unfold Close. destruct (closeOnce ic) eqn:Hc.
      * specialize (IH ic). destruct (exec ic cs). simpl in *.
        rewrite Hc in IH. exact IH.
      * unfold close. destruct (error_ _);
          match goal with |- context [exec ?i cs] =>
            specialize (IH i); destruct (exec i cs) as [ic2 evs'] end;
          simpl in *; split; try discriminate; lia.
Qed.

(** C5 (the code falls short of the claim). On a new connection the first
    [Close] forwards the close to the inner socket and then panics on the nil
    error pointer, before the tracker is called; and no sequence of calls on
    a new connection ever makes the connection emit a stats entry. Later
    [Close] calls return the result of the inner close and forward
    nothing. *)
Theorem Close_emits_no_stats_entry (remote : string) (now now' : Z)
        (cerr : option error) :
  (exists ic', Close (NewInstrumentedConn remote now) now' cerr
               = (ic', [Conn_Close], Panics)
               /\ forall now'' cerr'',
                   Close ic' now'' cerr'' = (ic', [], Returns cerr))
  /\ forall cs : list call,
      filter is_RecordStats (snd (exec (NewInstrumentedConn remote now) cs)) = [].
Proof.
  split.
  - eexists. split; [reflexivity|]. intros. reflexivity.
  - intros cs. now apply exec_from_nil.
Qed.

(** The counter of bytes written follows the successful writes. *)
Lemma exec_bytesOut (cs : list call) :
  forall ic,
    error_ ic = None -> (0 <= bytesOut ic < 2 ^ 64)%Z ->
    bytesOut (fst (exec ic cs))
    = ((bytesOut ic + successful_write_bytes cs) mod 2 ^ 64)%Z.
Proof.
  induction cs as [|c cs IH]; intros ic He Hr; cbn [exec successful_write_bytes].
  - cbn [fst]. rewrite Z.add_0_r. symmetry. now apply Z.mod_small.
  - pose proof (step_error_nil ic c He) as He1.
    assert (Hb : bytesOut (fst (fst (step ic c))) =
                 match c with
                 | CallWrite n None => uint64_add (bytesOut ic) n
                 | _ => bytesOut ic
                 end).
    { destruct c as [n [e|]|n [e|]|t cerr]; cbn [step].
      - unfold Read, record_error. now rewrite He.
      - reflexivity.
      - unfold Write, record_error. now rewrite He.
      - reflexivity.
      - unfold Close, close. destruct (closeOnce ic); [reflexivity|].
        now rewrite He. }
    destruct (step ic c) as [[ic1 evs] r]. cbn [fst] in He1, Hb.
    specialize (IH ic1 He1).
    destruct (exec ic1 cs) as [ic2 evs']. cbn [fst] in *.
    destruct c as [n err|n [e|]|t cerr]; rewrite Hb in IH;
      try (now apply IH).
    rewrite IH by (unfold uint64_add; apply Z.mod_pos_bound; lia).
    unfold uint64_add. rewrite Z.add_mod_idemp_l by lia.
    f_equal. lia.
Qed.

(** C6 (the code falls short of the claim). After any calls on a new
    connection the counter holds the byte counts of the successful writes
    added up (modulo 2^64), but the [Close] that should report it panics
    before it calls the tracker: no stats entry carries the sum. *)
Theorem Close_does_not_report_bytes_written (remote : string) (now now' : Z)
        (cs : list call) (cerr : option error) :
  let r := exec (NewInstrumentedConn remote now) (cs ++ [CallClose now' cerr]) in
  bytesOut (fst r) = (successful_write_bytes cs mod 2 ^ 64)%Z /\
  filter is_RecordStats (snd r) = [] /\
  exec (NewInstrumentedConn remote now) [CallWrite 5 None; CallClose now' cerr]
  = ({| address := remote; start := now; bytesIn := 0; bytesOut := 5;
        error_ := None; closeOnce := true; closeError := cerr |},
     [Conn_Write; Conn_Close]).
Proof.
  cbv zeta. split; [|split].
  - rewrite exec_bytesOut; [| reflexivity | cbn; lia].
    assert (Happ : successful_write_bytes (cs ++ [CallClose now' cerr])
                   = successful_write_bytes cs).
    { induction cs as [|c cs IH]; [reflexivity|].
      destruct c as [n err|n [e|]|t ce]; cbn [app successful_write_bytes];
        now rewrite IH. }
    now rewrite Happ.
  - now apply exec_from_nil.
  - reflexivity.
Qed.

(** C7 (the code falls short of the claim). On every connection reached
    from [NewInstrumentedConn], a [Read] whose inner read returns an error
    panics on the nil error pointer: the error is not recorded, the bytes
    are not counted and nothing is returned to the caller. *)
Theorem Read_error_panics (remote : string) (now : Z) (cs : list call)
        (n : Z) (e : error) :
  let ic := fst (exec (NewInstrumentedConn remote now) cs) in
  Read ic n (Some e) = (ic, [Conn_Read], Panics).
Proof.
  simpl. unfold Read, record_error. now rewrite reachable_error_nil.
Qed.

(** A read without error is counted and returned unchanged. *)
Lemma Read_ok (ic : InstrumentedConn) (n : Z) :
  exists ic', Read ic n None = (ic', [Conn_Read], Returns (n, None)) /\
              bytesIn ic' = uint64_add (bytesIn ic) n /\
              error_ ic' = error_ ic.
Proof. eexists. repeat split. Qed.

End connmetric_facts.

(** ** The proxy engine *)
Module proxy_facts.
Import proxy.

(** *** isCloseable *)





Example isCloseable_examples :
  isCloseable (ErrorString "remote error: tls: bad certificate") = true /\
  isCloseable (NetError "i/o timeout" true) = true /\
  isCloseable (NetError "connection reset by peer" false) = false /\
  isCloseable io_ErrUnexpectedEOF = false /\
  isCloseable (ErrorString "malformed HTTP request") = false.
Proof. repeat split. Qed.

(** *** roundTrip *)

(** C10. When the context of the request has skip-round-trip set,
    [roundTrip] does not invoke the RoundTripper (whichever is configured)
    and returns, with a nil error, the synthetic response with status 200
    for that request. *)
Theorem roundTrip_skipped (p : Proxy) (ctx : Context) (req : Request.t) :
  SkippingRoundTrip ctx = true ->
  (exists res, roundTrip p ctx req = ([], inl res) /\
               Response.StatusCode res = 200%Z /\
               Response.Request res = Some req) /\
  (forall p', roundTrip p' ctx req = roundTrip p ctx req).
Proof.
  intros H. unfold roundTrip. rewrite H. split.
  - exists (NewResponse 200 req). repeat split.
  - reflexivity.
Qed.

Lemma roundTrip_skipped_witness :
  SkippingRoundTrip {| skipRoundTrip := true |} = true /\
  exists res,
    roundTrip (sample_proxy false false) {| skipRoundTrip := true |}
              sample_request = ([], inl res) /\
    Response.StatusCode res = 200%Z /\
    Response.Request res = Some sample_request.
Proof.
  split; [reflexivity|].
  exact (proj1 (@roundTrip_skipped (sample_proxy false false)
                  {| skipRoundTrip := true |} sample_request eq_refl)).
Defined.

(** *** The reply *)

Lemma is_ErrUnexpectedEOF_iff (e : error) :
  is_ErrUnexpectedEOF e = true <-> e = io_ErrUnexpectedEOF.
Proof. destruct e; simpl; split; congruence. Qed.

Lemma close_requested_iff (env : Env) (req : Request.t) (res : Response.t) :
  close_requested env req res = true <->
  Request.ProtoAtLeast req 1 1 = false \/ Request.Close req = true \/
  Response.Close res = true \/ closing_on_reply env = true.
Proof.
  unfold close_requested.
  rewrite !orb_true_iff, negb_true_iff. tauto.
Qed.

Lemma write_forces_close_iff (env : Env) :
  write_forces_close env = true <->
  exists e, write_error env = Some e /\
            (is_ErrForceClose e = true \/ e = io_ErrUnexpectedEOF).
Proof.
  unfold write_forces_close. destruct (write_error env) as [e|].
  - rewrite orb_true_iff, is_ErrUnexpectedEOF_iff. split.
    + intros H. now exists e.
    + intros (e' & [= <-] & H). exact H.
  - split; [discriminate | intros (e & H & _); discriminate].
Qed.

Lemma flush_forces_close_iff (env : Env) :
  flush_forces_close env = true <->
  exists e, flush_error env = Some e /\ is_ErrForceClose e = true.
Proof.
  unfold flush_forces_close. destruct (flush_error env) as [e|].
  - split.
    + intros H. now exists e.
    + intros (e' & [= <-] & H). exact H.
  - split; [discriminate | intros (e & H & _); discriminate].
Qed.

(** Outside the 101 and dump-error exits, [reply] writes one response and
    decides between nil and [errClose]. *)
Lemma reply_eq (p : Proxy) (conn : Conn) (env : Env)
      (req : Request.t) (res : Response.t) :
  Response.StatusCode res <> 101%Z ->
  (forall b, conn = ShapedConn b -> dump_error env = None) ->
  exists evs_deadline,
    written evs_deadline = [] /\
    reply p conn env req res =
    (let res1 := if close_requested env req res then set_Close res else res in
     evs_deadline ++ [WriteResponse res1 (shouldFlush res1); Flush],
     if close_requested env req res || write_forces_close env
        || flush_forces_close env || CloseAfterReply p
     then Some errClose else None).
Proof.
  intros Hcode Hdump.
  exists (if (WriteTimeout p >? 0)%Z then [SetWriteDeadline (WriteTimeout p)]
          else []).
  split; [now destruct (WriteTimeout p >? 0)%Z|].
  unfold reply, write_forces_close, flush_forces_close.
  assert (Hd : match conn, dump_error env with
               | ShapedConn _, Some _ => False
               | _, _ => True
               end).
  { destruct conn as [| |b]; try exact I.
    now rewrite (Hdump b eq_refl). }
  assert (H101 : forall r, Response.StatusCode r = Response.StatusCode res ->
                           (Response.StatusCode r =? 101)%Z = false).
  { intros r ->. now apply Z.eqb_neq. }
  destruct (close_requested env req res);
    cbn iota beta zeta;
    (destruct conn as [| |b]; [| |destruct (dump_error env); [contradiction|]]);
    rewrite H101 by reflexivity;
    destruct (write_error env) as [we|];
    destruct (flush_error env) as [fe|];
    try destruct (is_ErrForceClose we); try destruct (is_ErrUnexpectedEOF we);
    try destruct (is_ErrForceClose fe); destruct (CloseAfterReply p);
    reflexivity.
Qed.

(** C9, as the code has it. For an exchange that is neither a CONNECT nor
    a 101 (and whose traffic-shaping dump does not fail), the response
    written back has [Close] set exactly when the request is below
    HTTP/1.1, or Connection: close is on the request or on the response, or
    the proxy is shutting down; and [handle] ends with [errClose], so that
    the connection is terminated after the write, exactly when one of these
    holds, or CloseAfterReply is set, or the write fails with a force-close
    or an unexpected EOF, or the flush fails with a force-close.
    CloseAfterReply does not set [res.Close]. *)
Theorem reply_sets_Close_and_terminates (p : Proxy) (conn : Conn) (env : Env)
        (req : Request.t) (res : Response.t) :
  Response.StatusCode res <> 101%Z ->
  (forall b, conn = ShapedConn b -> dump_error env = None) ->
  let close4 :=
    Request.ProtoAtLeast req 1 1 = false \/ Request.Close req = true \/
    Response.Close res = true \/ closing_on_reply env = true in
  exists res',
    written (fst (reply p conn env req res)) = [res'] /\
    (Response.Close res' = true <-> close4) /\
    (snd (reply p conn env req res) = Some errClose <->
     close4 \/ CloseAfterReply p = true \/
     (exists e, write_error env = Some e /\
                (is_ErrForceClose e = true \/ e = io_ErrUnexpectedEOF)) \/
     (exists e, flush_error env = Some e /\ is_ErrForceClose e = true)) /\
    (snd (reply p conn env req res) <> Some errClose ->
     snd (reply p conn env req res) = None).
Proof.
  intros Hcode Hdump close4.
  destruct (@reply_eq p conn env req res Hcode Hdump) as (evd & Hevd & ->).
  cbn [fst snd].
  exists (if close_requested env req res then set_Close res else res).
  assert (Hw : forall l r f,
             written l = [] -> written (l ++ [WriteResponse r f; Flush]) = [r]).
  { induction l as [|e l IH]; intros r f Hl; [reflexivity|].
    destruct e; simpl in *; try discriminate; now apply IH. }
  split; [now apply Hw|]. subst close4. split; [|split].
  - destruct (close_requested env req res) eqn:Hc.
    + split; [intros _; now apply close_requested_iff | reflexivity].
    + split; intros H.
      * assert (close_requested env req res = true)
          by (apply close_requested_iff; auto).
        congruence.
      * apply close_requested_iff in H. congruence.
  - rewrite <- close_requested_iff, <- write_forces_close_iff,
      <- flush_forces_close_iff.
    destruct (close_requested env req res), (write_forces_close env),
      (flush_forces_close env), (CloseAfterReply p); simpl;
      intuition congruence.
  - destruct (_ || _); [now intros H | reflexivity].
Qed.

Lemma reply_sets_Close_and_terminates_witness :
  Response.StatusCode (NewResponse 200 sample_request) <> 101%Z /\
  exists res',
    written (fst (reply (sample_proxy true false) PlainConn sample_env
                        sample_request (NewResponse 200 sample_request)))
    = [res'] /\
    Response.Close res' = false /\
    snd (reply (sample_proxy true false) PlainConn sample_env
               sample_request (NewResponse 200 sample_request))
    = Some errClose.
Proof.
  split; [intros H; discriminate H|].
  destruct (@reply_sets_Close_and_terminates (sample_proxy true false) PlainConn
              sample_env sample_request (NewResponse 200 sample_request))
    as (res' & Hw & Hclose & Hterm & _).
  - intros H; discriminate H.
  - intros b H; discriminate H.
  - exists res'. split; [exact Hw|]. split.
    + destruct (Response.Close res') eqn:E; [|reflexivity].
      destruct (proj1 Hclose eq_refl) as [H|[H|[H|H]]];
        vm_compute in H; discriminate H.
    + apply Hterm. right; left; reflexivity.
Defined.

(** C9 as stated fails: with only CloseAfterReply set, the connection is
    terminated after the write but the response goes out with [Close]
    unset. *)
Lemma CloseAfterReply_leaves_Close_unset :
  ~ closes_exactly_when (sample_proxy true false) PlainConn sample_env
      sample_request (NewResponse 200 sample_request).
Proof.
  intros H.
  destruct (H (NewResponse 200 sample_request) eq_refl) as [_ H'].
  destruct H' as [Hc _]; [do 4 right; reflexivity | discriminate Hc].
Qed.

(** *** Hijacked sessions *)

Lemma after_hijack_quiet_app (a b : list event) :
  quiet a = true -> after_hijack (a ++ b) = after_hijack b.
Proof.
  induction a as [|e a IH]; simpl; [reflexivity|].
  intros H. apply andb_true_iff in H as [He Ha].
  destruct e; try discriminate; now apply IH.
Qed.

Lemma after_hijack_quiet (a : list event) :
  quiet a = true -> after_hijack a = None.
Proof.
  intros H. rewrite <- (app_nil_r a). now rewrite after_hijack_quiet_app.
Qed.

Lemma after_hijack_app_some (a b post : list event) :
  after_hijack a = Some post -> after_hijack (a ++ b) = Some (post ++ b).
Proof.
  induction a as [|e a IH]; simpl; [discriminate|].
  destruct e; try apply IH. now intros [= ->].
Qed.

Lemma quiet_app (a b : list event) :
  quiet (a ++ b) = quiet a && quiet b.
Proof. apply forallb_app. Qed.

Lemma readRequest_quiet (p : Proxy) (env : Env) :
  quiet (fst (readRequest p env)) = true.
Proof.
  unfold readRequest.
  destruct (read env), (close_writer env), (option_Z_eqb _ _); reflexivity.
Qed.

Lemma roundTrip_quiet (p : Proxy) (ctx : Context) (req : Request.t) :
  quiet (fst (roundTrip p ctx req)) = true.
Proof. unfold roundTrip. now destruct (SkippingRoundTrip ctx). Qed.

Lemma tunnel_quiet (env : Env) (name : string) (res : Response.t) :
  quiet (tunnel env name res) = true.
Proof.
  unfold tunnel. now destruct (write_error env), (flush_error env).
Qed.

Lemma reply_quiet (p : Proxy) (conn : Conn) (env : Env)
      (req : Request.t) (res : Response.t) :
  quiet (fst (reply p conn env req res)) = true.
Proof.
  unfold reply, handleUpgradeResponse.
  destruct (close_requested env req res); cbn iota beta zeta;
    destruct conn as [| |b]; destruct (dump_error env);
    try reflexivity;
    destruct (Response.StatusCode _ =? 101)%Z;
    try (destruct (Response.BodyReadWriteCloser _);
         [apply tunnel_quiet | reflexivity]);
    cbn [fst]; rewrite quiet_app;
    destruct (WriteTimeout p >? 0)%Z; reflexivity.
Qed.

Lemma handleRequest_inv (p : Proxy) (conn : Conn) (env : Env)
      (s : Session) (req : Request.t) :
  hijacked s = false ->
  let '(s', evs, err) := handleRequest p conn env s req in
  hijack_inv s' evs (err = None).
Proof.
  intros Hs. unfold handleRequest, after_modifier, hijack_events.
  destruct (reqmod p req) as [req1 [e1 h1 k1]]. cbn [mod_error mod_hijack
    mod_skip_round_trip hijacked secure]. rewrite Hs. cbn [orb].
  destruct h1.
  - unfold hijack_inv. cbn. split; [reflexivity|]. now exists [].
  - match goal with |- context [roundTrip ?a ?b ?c] =>
      pose proof (roundTrip_quiet a b c) as Hq;
      destruct (roundTrip a b c) as [evs2 rt] end.
    cbn [fst] in Hq.
    match goal with |- context [resmod p ?r] =>
      destruct (resmod p r) as [res2 [e2 h2 k2]] end.
    cbn [mod_error mod_hijack mod_skip_round_trip hijacked secure orb].
    destruct h2.
    + unfold hijack_inv. cbn [hijacked]. split; [reflexivity|].
      exists [ResponseBodyClose]. split; [|reflexivity].
      cbn [app after_hijack]. now rewrite after_hijack_quiet_app.
    + match goal with |- context [reply ?a ?b ?c ?d ?e] =>
        pose proof (reply_quiet a b c d e) as Hr;
        destruct (reply a b c d e) as [evs4 r] end.
      cbn [fst] in Hr. unfold hijack_inv. cbn [hijacked app after_hijack].
      rewrite after_hijack_quiet_app by assumption. cbn [app after_hijack].
      rewrite after_hijack_quiet_app by assumption. reflexivity.
Qed.

(** The end of [handleConnectRequest] when no interception is configured,
    once the response or the error of the tunnel is known. *)
Ltac connect_tail p :=
  match goal with
  | |- context [resmod p ?r] =>
      let h2 := fresh "h2" in
      destruct (resmod p r) as [? [? h2 ?]];
      cbn [mod_error mod_hijack mod_skip_round_trip hijacked secure orb];
      destruct h2;
      [ unfold hijack_inv; cbn [hijacked]; split; [reflexivity|];
        eexists; split;
        [ cbn [app after_hijack];
          try rewrite after_hijack_quiet_app by assumption;
          cbn [app after_hijack]; reflexivity
        | reflexivity ]
      | destruct (negb _); unfold hijack_inv; cbn [hijacked app after_hijack];
        try rewrite after_hijack_quiet_app by assumption;
        cbn [app after_hijack];
        try rewrite after_hijack_quiet_app by apply tunnel_quiet;
        reflexivity ]
  end.

Lemma handleConnectRequest_inv (p : Proxy) (conn : Conn) (env : Env)
      (s : Session) (req : Request.t)
      (nested : Conn -> Session -> Session * list event * outcome) :
  (forall conn' s', hijacked s' = false ->
      let '(s3, evs, out) := nested conn' s' in
      hijack_inv s3 evs (out = Returned None)) ->
  hijacked s = false ->
  let '(s', evs, out) := handleConnectRequest p conn env s req nested in
  hijack_inv s' evs (out = Returned None).
Proof.
  intros Hnested Hs. unfold handleConnectRequest, after_modifier, hijack_events.
  destruct (reqmod p req) as [req1 [e1 h1 k1]]. cbn [mod_error mod_hijack
    mod_skip_round_trip hijacked secure]. rewrite Hs. cbn [orb].
  destruct h1.
  { unfold hijack_inv. cbn. split; [reflexivity|]. now exists []. }
  destruct (mitm p).
  - match goal with |- context [resmod p ?r] =>
      destruct (resmod p r) as [res2 [e2 h2 k2]] end.
    cbn [mod_error mod_hijack mod_skip_round_trip hijacked secure orb].
    destruct h2.
    { unfold hijack_inv. cbn. split; [reflexivity|]. now exists []. }
    destruct (peeked env =? 22)%Z.
    + destruct (handshake_error env) as [herr|].
      { unfold hijack_inv. reflexivity. }
      destruct (negotiated_h2 env).
      { unfold hijack_inv. reflexivity. }
      match goal with |- context [nested ?c ?t] =>
        pose proof (Hnested c t eq_refl) as Hn;
        destruct (nested c t) as [[s3 evs4] out] end.
      unfold hijack_inv in *. cbn [app after_hijack]. exact Hn.
    + match goal with |- context [nested ?c ?t] =>
        pose proof (Hnested c t eq_refl) as Hn;
        destruct (nested c t) as [[s3 evs4] out] end.
      unfold hijack_inv in *. cbn [app after_hijack]. exact Hn.
  - destruct (ConnectPassthrough p).
    + match goal with |- context [roundTrip ?a ?b ?c] =>
        pose proof (roundTrip_quiet a b c) as Hq;
        destruct (roundTrip a b c) as [evs rt] end.
      cbn [fst] in Hq. destruct rt; connect_tail p.
    + destruct (connect_result env) as [r [|]|r [|]]; connect_tail p.
Qed.

(** Induction on the calls of [handle] nested by interception. *)
Lemma Exchange_nested_ind (P : Exchange -> Prop) :
  (forall env, P (Exch env None)) ->
  (forall env x, P x -> P (Exch env (Some x))) ->
  forall x, P x.
Proof.
  intros H0 H1. fix IH 1. intros [env [x|]].
  - apply H1, IH.
  - apply H0.
Qed.

Lemma after_hijack_none_app (a b : list event) :
  after_hijack a = None -> after_hijack (a ++ b) = after_hijack b.
Proof.
  induction a as [|e a IH]; [reflexivity|].
  cbn. destruct e; try discriminate; exact IH.
Qed.

Lemma hijack_inv_defer (s' : Session) (evs0 evs : list event) (d : event)
      (out : outcome) :
  quiet evs0 = true -> is_deferred_close d = true ->
  hijack_inv s' evs (out = Returned None) ->
  hijack_inv s' (evs0 ++ evs ++ [d]) (out = Returned None).
Proof.
  unfold hijack_inv. intros H0 Hd. rewrite after_hijack_quiet_app by assumption.
  destruct (hijacked s').
  - intros [Hout (post & Hp & Hc)]. split; [assumption|].
    exists (post ++ [d]). split; [now apply after_hijack_app_some|].
    rewrite forallb_app, Hc. cbn. now rewrite Hd.
  - intros H. rewrite after_hijack_none_app by assumption.
    destruct d; try discriminate; reflexivity.
Qed.

Lemma handle_inv (p : Proxy) (x : Exchange) :
  forall conn s, hijacked s = false ->
    let '(s', evs, out) := handle p conn s x in
    hijack_inv s' evs (out = Returned None).
Proof.
  induction x as [env|env x IH] using Exchange_nested_ind; intros conn s Hs;
    cbn [handle];
    pose proof (readRequest_quiet p env) as Hq;
    destruct (readRequest p env) as [evs0 [req0|err]]; cbn [fst] in Hq.
  all: try (unfold hijack_inv; rewrite Hs; now apply after_hijack_quiet).
  all: set (s0 := match conn with
                  | TLSConn | ShapedConn true => MarkSecure s
                  | _ => s
                  end);
    assert (Hs0 : hijacked s0 = false)
      by (subst s0; destruct conn as [| |[|]]; assumption);
    clearbody s0;
    destruct (String.eqb _ "CONNECT").
  - match goal with |- context [handleConnectRequest ?a ?b ?c ?d ?e ?f] =>
      pose proof (@handleConnectRequest_inv a b c d e f) as Hc;
      destruct (handleConnectRequest a b c d e f) as [[s1 evs1] out] end.
    assert (Hi : hijack_inv s1 evs1 (out = Returned None)).
    { apply Hc; [|assumption]. intros conn' s' Hs'. unfold hijack_inv.
      rewrite Hs'. reflexivity. }
    destruct out as [r|].
    + now apply hijack_inv_defer.
    + unfold hijack_inv in *. rewrite after_hijack_quiet_app by assumption.
      exact Hi.
  - pose proof (@handleRequest_inv p conn env s0 (fix_scheme p s0 (prepare_request conn env req0)) Hs0) as Hr.
    destruct (handleRequest _ _ _ _ _) as [[s1 evs1] err].
    apply hijack_inv_defer; [assumption | reflexivity |].
    unfold hijack_inv in *. destruct (hijacked s1); [|assumption].
    destruct Hr as [-> Hp]. now split.
  - match goal with |- context [handleConnectRequest ?a ?b ?c ?d ?e ?f] =>
      pose proof (@handleConnectRequest_inv a b c d e f) as Hc;
      destruct (handleConnectRequest a b c d e f) as [[s1 evs1] out] end.
    assert (Hi : hijack_inv s1 evs1 (out = Returned None)).
    { apply Hc; [|assumption]. intros conn' s' Hs'. now apply IH. }
    destruct out as [r|].
    + now apply hijack_inv_defer.
    + unfold hijack_inv in *. rewrite after_hijack_quiet_app by assumption.
      exact Hi.
  - pose proof (@handleRequest_inv p conn env s0 (fix_scheme p s0 (prepare_request conn env req0)) Hs0) as Hr.
    destruct (handleRequest _ _ _ _ _) as [[s1 evs1] err].
    apply hijack_inv_defer; [assumption | reflexivity |].
    unfold hijack_inv in *. destruct (hijacked s1); [|assumption].
    destruct Hr as [-> Hp]. now split.
Qed.

(** The loop leaves as soon as a call of [handle] ends hijacked. *)
Lemma handleLoop_for_inv (p : Proxy) (conn : Conn) (script : list Exchange) :
  forall s errors, hijacked s = false ->
    forall post,
      after_hijack (fst (handleLoop_for p conn s errors script)) = Some post ->
      snd (handleLoop_for p conn s errors script) = true /\
      forallb is_deferred_close post = true.
Proof.
  induction script as [|x script IH]; intros s errors Hs post; cbn [handleLoop_for].
  - discriminate.
  - pose proof (@handle_inv p x conn s Hs) as Hh.
    destruct (handle p conn s x) as [[s1 evs] out].
    unfold hijack_inv in Hh. destruct (hijacked s1) eqn:H1.
    + destruct Hh as [-> (post0 & Hp & Hc)]. cbv zeta. cbn [fst snd].
      rewrite Hp. intros [= <-]. now split.
    + assert (Hquiet : forall l, after_hijack (evs ++ l) = after_hijack l)
        by (intros l; now apply after_hijack_none_app).
      destruct out as [[err|]|]; cbv zeta; cbn [fst snd].
      * destruct (isCloseable err);
          [cbn [fst snd]; rewrite Hh; discriminate|].
        destruct (maxConsecutiveErrors <=? S errors);
          [cbn [fst snd]; rewrite Hh; discriminate|].
        specialize (IH s1 (S errors) H1 post).
        destruct (handleLoop_for p conn s1 (S errors) script) as [evs' left].
        cbn [fst snd] in *. now rewrite Hquiet.
      * specialize (IH s1 0 H1 post).
        destruct (handleLoop_for p conn s1 0 script) as [evs' left].
        cbn [fst snd] in *. now rewrite Hquiet.
      * rewrite Hh. discriminate.
Qed.

Lemma after_hijack_split (pre post : list event) :
  exists post0,
    after_hijack (pre ++ Hijack :: post) = Some post0 /\
    (post0 = post \/ In Hijack post0).
Proof.
  induction pre as [|e pre (post0 & H & Hor)].
  - exists post. now split; [|left].
  - destruct e; cbn; try (exists post0; now split).
    exists (pre ++ Hijack :: post). split; [reflexivity|].
    right. apply in_or_app. right. now left.
Qed.

Lemma deferred_closes (l : list event) :
  forallb is_deferred_close l = true ->
  ~ In Hijack l /\
  Forall (fun e => e = RequestBodyClose \/ e = ResponseBodyClose \/
                   e = UpstreamClose) l /\
  Forall (fun e => is_conn_io e = false) l.
Proof.
  induction l as [|e l IH]; cbn; [now repeat split|].
  intros H. apply andb_true_iff in H as [He Hl].
  destruct (IH Hl) as (H1 & H2 & H3).
  destruct e; try discriminate; repeat split; try constructor; auto;
    intros [H|H]; try discriminate; contradiction.
Qed.

(** C4, as the code has it. Once a modifier has hijacked the session during
    the handling of a request, [handleLoop] returns, and what the engine
    still does on the way out are deferred closes only: of the request and
    response bodies and of an upstream connection and, last, the deferred
    [conn.Close()] on the socket itself. Among them there is no read from
    and no write to the connection. *)
Theorem handleLoop_after_hijack (p : Proxy) (conn : Conn) (closing : bool)
        (script : list Exchange) (pre post : list event) :
  fst (handleLoop p conn closing script) = pre ++ Hijack :: post ->
  snd (handleLoop p conn closing script) = true /\
  (exists closes,
      post = closes ++ [ConnClose] /\
      Forall (fun e => e = RequestBodyClose \/ e = ResponseBodyClose \/
                       e = UpstreamClose) closes) /\
  Forall (fun e => is_conn_io e = false) post.
Proof.
  unfold handleLoop. destruct closing.
  { cbn [fst]. intros H. exfalso.
    destruct pre as [|e [|e' pre]]; discriminate H. }
  pose proof (@handleLoop_for_inv p conn script
                {| secure := false; hijacked := false |} 0 eq_refl) as Hinv.
  destruct (handleLoop_for p conn _ 0 script) as [evs left].
  cbn [fst snd] in Hinv.
  destruct (after_hijack_split pre post) as (post0 & Hsome & Hor).
  destruct left; cbn [fst snd]; intros Hevs.
  - rewrite <- Hevs in Hsome.
    destruct (after_hijack evs) as [pe|] eqn:He.
    + destruct (Hinv pe eq_refl) as [_ Hc].
      rewrite (after_hijack_app_some _ [ConnClose] He) in Hsome.
      injection Hsome as <-.
      destruct (deferred_closes pe Hc) as (Hn & Hf & Hio).
      assert (Hpost : pe ++ [ConnClose] = post).
      { destruct Hor as [H|H]; [assumption|].
        apply in_app_or in H as [H|[H|[]]]; [contradiction | discriminate]. }
      subst post. split; [reflexivity|]. split.
      * now exists pe.
      * apply Forall_app. split; [assumption | now repeat constructor].
    + exfalso. clear -He Hsome.
      rewrite after_hijack_none_app in Hsome by assumption. discriminate.
  - rewrite <- Hevs in Hsome. destruct (Hinv post0 Hsome). discriminate.
Qed.

(** A GET whose request modifier hijacks the session: the loop returns and
    the socket is closed on the way out. *)
Lemma hijacked_connection_is_closed :
  handleLoop (sample_proxy false true) PlainConn false [Exch sample_env None]
  = ([SetReadDeadline None; ReadRequest;
      ModifyRequest (fix_scheme (sample_proxy false true)
                       {| secure := false; hijacked := false |}
                       (prepare_request PlainConn sample_env sample_request));
      Hijack; RequestBodyClose; ConnClose], true) /\
  ~ hijack_leaves_connection
      (handleLoop (sample_proxy false true) PlainConn false
                  [Exch sample_env None]).
Proof.
  split; [reflexivity|]. intros H.
  destruct (H [SetReadDeadline None; ReadRequest;
               ModifyRequest (fix_scheme (sample_proxy false true)
                                {| secure := false; hijacked := false |}
                                (prepare_request PlainConn sample_env
                                                 sample_request))]
              [RequestBodyClose; ConnClose] eq_refl) as (_ & Hno & _).
  apply Hno. right. now left.
Qed.

Lemma handleLoop_after_hijack_witness :
  snd (handleLoop (sample_proxy false true) PlainConn false
                  [Exch sample_env None]) = true /\
  (exists closes,
      [RequestBodyClose; ConnClose] = closes ++ [ConnClose] /\
      Forall (fun e => e = RequestBodyClose \/ e = ResponseBodyClose \/
                       e = UpstreamClose) closes) /\
  Forall (fun e => is_conn_io e = false) [RequestBodyClose; ConnClose].
Proof.
  exact (@handleLoop_after_hijack (sample_proxy false true) PlainConn false
           [Exch sample_env None]
           [SetReadDeadline None; ReadRequest;
            ModifyRequest (fix_scheme (sample_proxy false true)
                             {| secure := false; hijacked := false |}
                             (prepare_request PlainConn sample_env
                                              sample_request))]
           [RequestBodyClose; ConnClose] eq_refl).
Defined.

End proxy_facts.

(** ** Building, snapshotting and verifying groups *)
Module fifo_ops_facts.
Import fifo fifo_ops fifo_facts.

Section Build.
Variables (Request Response : Type).
Abbreviation Modifier := (Modifier Request Response).
Abbreviation group := (group Request Response).
Abbreviation mreq := (@Modifier_ModifyRequest Request Response).
Abbreviation mres := (@Modifier_ModifyResponse Request Response).

(** X1. A request modifier added to a group runs after the entries the
    group had: without aggregation it runs only if they returned no error,
    on the request as they left it; with aggregation it always runs and its
    error joins theirs as the last member. The response side of the group
    is unchanged. *)
Theorem AddRequestModifier_runs_last (g : group) (m : Modifier) :
  (forall req,
      group_ModifyRequest (AddRequestModifier g m) req =
      let (r1, old) := group_ModifyRequest g req in
      if aggregateErrors g then
        let (r2, e) := mreq m r1 in
        (r2, merr_result (match old with
                          | Some (MultiError errs) => errs
                          | _ => []
                          end ++ opt_list e))
      else
        match old with
        | Some err => (r1, Some err)
        | None => mreq m r1
        end)
  /\ (forall res,
      group_ModifyResponse (AddRequestModifier g m) res =
      group_ModifyResponse g res).
Proof.
  split; [|intros res; now destruct g].
  intros req. rewrite !group_ModifyRequest_eq.
  destruct g as [rq rs agg]. cbn [AddRequestModifier reqmods aggregateErrors].
  destruct agg.
  - rewrite !modify_loop_aggregate, run_in_order_app.
    destruct (run_in_order mreq rq req) as [r1 outs]. cbn [merr_list app].
    rewrite run_in_order_single.
    destruct (mreq m r1) as [r2 e]. cbn [fst snd].
    rewrite errors_of_app.
    replace (errors_of [e]) with (opt_list e) by now destruct e.
    now destruct (errors_of outs).
  - rewrite modify_loop_false_app.
    destruct (modify_loop mreq false rq None req) as [r1 [err|]];
      [reflexivity | apply modify_loop_single].
Qed.

(** X2. The same for a response modifier added to a group. *)
Theorem AddResponseModifier_runs_last (g : group) (m : Modifier) :
  (forall res,
      group_ModifyResponse (AddResponseModifier g m) res =
      let (r1, old) := group_ModifyResponse g res in
      if aggregateErrors g then
        let (r2, e) := mres m r1 in
        (r2, merr_result (match old with
                          | Some (MultiError errs) => errs
                          | _ => []
                          end ++ opt_list e))
      else
        match old with
        | Some err => (r1, Some err)
        | None => mres m r1
        end)
  /\ (forall req,
      group_ModifyRequest (AddResponseModifier g m) req =
      group_ModifyRequest g req).
Proof.
  split; [|intros req; now destruct g].
  intros res. rewrite !group_ModifyResponse_eq.
  destruct g as [rq rs agg]. cbn [AddResponseModifier resmods aggregateErrors].
  destruct agg.
  - rewrite !modify_loop_aggregate, run_in_order_app.
    destruct (run_in_order mres rs res) as [r1 outs]. cbn [merr_list app].
    rewrite run_in_order_single.
    destruct (mres m r1) as [r2 e]. cbn [fst snd].
    rewrite errors_of_app.
    replace (errors_of [e]) with (opt_list e) by now destruct e.
    now destruct (errors_of outs).
  - rewrite modify_loop_false_app.
    destruct (modify_loop mres false rs None res) as [r1 [err|]];
      [reflexivity | apply modify_loop_single].
Qed.

(** No entry of a snapshot is a mutable group. *)
Lemma snapshot_has_no_Group (n : nat) :
  forall g : group, group_size g <= n ->
    forallb (fun m => negb (is_GroupPtr m)) (reqmods (ToImmutable g)) = true /\
    forallb (fun m => negb (is_GroupPtr m)) (resmods (ToImmutable g)) = true.
Proof.
  induction n as [|n IH]; intros g Hn.
  - destruct g as [rq rs a]. rewrite group_size_eq in Hn. lia.
  - rewrite ToImmutable_reqmods, ToImmutable_resmods. split.
    + assert (Hc : forall c, In (GroupPtr c) (reqmods g) -> group_size c <= n)
        by (intros c Hin; apply child_smaller_req in Hin; lia).
      induction (reqmods g) as [|m l IHl]; [reflexivity|].
      cbn [flat_map]. rewrite forallb_app.
      rewrite IHl by (intros c Hin; apply Hc; now right).
      rewrite andb_true_r.
      destruct m as [fq fs|c|c]; cbn [snapshot_request_entry]; try reflexivity.
      destruct (Bool.eqb _ _); [|reflexivity].
      apply IH, Hc. now left.
    + assert (Hc : forall c, In (GroupPtr c) (resmods g) -> group_size c <= n)
        by (intros c Hin; apply child_smaller_res in Hin; lia).
      induction (resmods g) as [|m l IHl]; [reflexivity|].
      cbn [flat_map]. rewrite forallb_app.
      rewrite IHl by (intros c Hin; apply Hc; now right).
      rewrite andb_true_r.
      destruct m as [fq fs|c|c]; cbn [snapshot_response_entry]; try reflexivity.
      destruct (Bool.eqb _ _); [|reflexivity].
      apply IH, Hc. now left.
Qed.

(** Entries that are not mutable groups are copied as they are. *)
Lemma flat_map_snapshot_request (agg : bool) (l : list Modifier) :
  forallb (fun m => negb (is_GroupPtr m)) l = true ->
  flat_map (snapshot_request_entry agg) l = l.
Proof.
  induction l as [|m l IH]; [reflexivity|]. cbn [forallb flat_map].
  intros H. apply andb_true_iff in H as [Hm Hl]. rewrite (IH Hl).
  now destruct m.
Qed.

Lemma flat_map_snapshot_response (agg : bool) (l : list Modifier) :
  forallb (fun m => negb (is_GroupPtr m)) l = true ->
  flat_map (snapshot_response_entry agg) l = l.
Proof.
  induction l as [|m l IH]; [reflexivity|]. cbn [forallb flat_map].
  intros H. apply andb_true_iff in H as [Hm Hl]. rewrite (IH Hl).
  now destruct m.
Qed.

Lemma group_eta (g : group) :
  g = mk_group (reqmods g) (resmods g) (aggregateErrors g).
Proof. now destruct g. Qed.

(** X3. However deep groups are nested, no entry of the snapshot that
    [ToImmutable] returns is a mutable [Group] any more: each one was
    inlined or replaced by an immutable group. *)
Theorem ToImmutable_leaves_no_Group (g : group) :
  Forall (fun m => is_GroupPtr m = false) (reqmods (ToImmutable g)) /\
  Forall (fun m => is_GroupPtr m = false) (resmods (ToImmutable g)).
Proof.
  destruct (@snapshot_has_no_Group (group_size g) g (le_n _)) as [H1 H2].
  split; apply Forall_forall; intros m Hin.
  - rewrite forallb_forall in H1. apply negb_true_iff. now apply H1.
  - rewrite forallb_forall in H2. apply negb_true_iff. now apply H2.
Qed.

(** X4. A group none of whose entries is a mutable [Group] is snapshotted
    as it is: same entries, same flag. *)
Theorem ToImmutable_copies_flat_group (g : group) :
  Forall (fun m => is_GroupPtr m = false) (reqmods g) ->
  Forall (fun m => is_GroupPtr m = false) (resmods g) ->
  ToImmutable g = g.
Proof.
  intros Hq Hs.
  assert (Hq' : forallb (fun m => negb (is_GroupPtr m)) (reqmods g) = true).
  { apply forallb_forall. intros m Hin. apply negb_true_iff.
    rewrite Forall_forall in Hq. now apply Hq. }
  assert (Hs' : forallb (fun m => negb (is_GroupPtr m)) (resmods g) = true).
  { apply forallb_forall. intros m Hin. apply negb_true_iff.
    rewrite Forall_forall in Hs. now apply Hs. }
  rewrite (group_eta (ToImmutable g)).
  rewrite ToImmutable_reqmods, ToImmutable_resmods, ToImmutable_aggregateErrors.
  rewrite flat_map_snapshot_request, flat_map_snapshot_response by assumption.
  symmetry. apply group_eta.
Qed.

(** X5. Snapshotting is idempotent: the entries and the flag of a snapshot,
    snapshotted again, are unchanged. *)
Theorem ToImmutable_idempotent (g : group) :
  ToImmutable (ToImmutable g) = ToImmutable g.
Proof.
  destruct (@snapshot_has_no_Group (group_size g) g (le_n _)) as [H1 H2].
  rewrite (group_eta (ToImmutable (ToImmutable g))).
  rewrite (ToImmutable_reqmods (ToImmutable g)),
    (ToImmutable_resmods (ToImmutable g)),
    (ToImmutable_aggregateErrors (ToImmutable g)).
  rewrite flat_map_snapshot_request, flat_map_snapshot_response by assumption.
  symmetry. apply group_eta.
Qed.
End Build.

Lemma ToImmutable_copies_flat_group_witness :
  ToImmutable (counters true) = counters true.
Proof.
  apply ToImmutable_copies_flat_group; repeat constructor.
Defined.

Section VerifyFacts.
Variable M : Type.
Variable verifier : M -> option (option error).

Lemma verify_loop_eq (mods : list M) (merr : option (list error)) :
  verify_loop verifier mods merr =
  merr_result (merr_list merr ++ verification_errors verifier mods).
Proof.
  revert merr. induction mods as [|m mods IH]; intros merr.
  - cbn. rewrite app_nil_r. now destruct merr as [[|x errs]|].
  - cbn [verify_loop verification_errors flat_map].
    destruct (verifier m) as [[err|]|]; rewrite IH; cbn [app]; try reflexivity.
    unfold Add, NewMultiError. destruct merr as [errs|]; cbn [merr_list];
      [now rewrite <- app_assoc | reflexivity].
Qed.

(** X6. [VerifyRequests] (and [VerifyResponses]) asks every entry that is
    a verifier, skipping the others, and returns nil exactly when none of
    them reports an error; otherwise it returns a multi-error whose members
    are the reported errors in insertion order. *)
Theorem Verify_collects (mods : list M) :
  Verify verifier mods =
    match verification_errors verifier mods with
    | [] => None
    | errs => Some (MultiError errs)
    end /\
  (Verify verifier mods = None <->
   forall m, In m mods -> verifier m = None \/ verifier m = Some None).
Proof.
  unfold Verify. rewrite verify_loop_eq. cbn [merr_list app]. split.
  - now destruct (verification_errors verifier mods).
  - assert (H : verification_errors verifier mods = [] <->
                forall m, In m mods -> verifier m = None \/ verifier m = Some None).
    { induction mods as [|m mods IH]; cbn [verification_errors flat_map].
      - split; [intros _ m [] | reflexivity].
      - fold (verification_errors verifier mods). split.
        + intros H. apply app_eq_nil in H as [Hm Hl].
          intros m' [<-|Hin]; [|now apply IH].
          destruct (verifier m) as [[e|]|]; [discriminate | now right | now left].
        + intros H. rewrite (proj2 IH) by (intros m' Hin; apply H; now right).
          rewrite app_nil_r.
          destruct (H m (or_introl eq_refl)) as [-> | ->]; reflexivity. }
    rewrite <- H. destruct (verification_errors verifier mods);
      split; try discriminate; reflexivity.
Qed.
End VerifyFacts.

End fifo_ops_facts.

(** ** The instrumented connection over sequences of calls *)
Module connmetric_calls_facts.
Import connmetric connmetric_calls connmetric_facts.

Lemma record_error_keeps (ic ic1 : InstrumentedConn) (err : option error) :
  record_error ic err = Some ic1 ->
  closeOnce ic1 = closeOnce ic /\ bytesIn ic1 = bytesIn ic /\
  bytesOut ic1 = bytesOut ic.
Proof.
  unfold record_error. destruct err as [e|]; [|now intros [= <-]].
  destruct (error_ ic) as [[x|]|]; try discriminate; now intros [= <-].
Qed.

Lemma step_closeOnce (ic : InstrumentedConn) (c : call) :
  closeOnce (fst (fst (step ic c))) = closeOnce ic || is_CallClose c.
Proof.
  destruct c as [n err|n err|t cerr]; cbn [step is_CallClose].
  - unfold Read. destruct (record_error ic err) as [ic1|] eqn:E; cbn.
    + apply record_error_keeps in E as (-> & _). now rewrite orb_false_r.
    + now rewrite orb_false_r.
  - unfold Write. destruct (record_error ic err) as [ic1|] eqn:E; cbn.
    + apply record_error_keeps in E as (-> & _). now rewrite orb_false_r.
    + now rewrite orb_false_r.
  - unfold Close, close. destruct (closeOnce ic) eqn:Hc; cbn;
      [now rewrite Hc|].
    now destruct (error_ ic).
Qed.

Lemma step_Conn_Close (ic : InstrumentedConn) (c : call) :
  length (filter is_Conn_Close (snd (fst (step ic c)))) =
  if negb (closeOnce ic) && is_CallClose c then 1 else 0.
Proof.
  destruct c as [n err|n err|t cerr]; cbn [step is_CallClose].
  - rewrite andb_false_r. unfold Read. now destruct (record_error ic err).
  - rewrite andb_false_r. unfold Write. now destruct (record_error ic err).
  - unfold Close, close. destruct (closeOnce ic); [reflexivity|].
    now destruct (error_ _).
Qed.

(** X7. Over any sequence of reads, writes and closes, on a connection in
    any state, the close is forwarded to the inner socket exactly once if
    the connection was not closed before and the sequence contains a
    [Close], and not at all otherwise. *)
Theorem Close_forwarded_once (ic : InstrumentedConn) (cs : list call) :
  length (filter is_Conn_Close (snd (exec ic cs))) =
  if closeOnce ic then 0
  else if existsb is_CallClose cs then 1 else 0.
Proof.
  revert ic. induction cs as [|c cs IH]; intros ic; cbn [exec existsb].
  - now destruct (closeOnce ic).
  - pose proof (step_closeOnce ic c) as H1.
    pose proof (step_Conn_Close ic c) as H2.
    destruct (step ic c) as [[ic1 evs] r]. cbn [fst snd] in H1, H2.
    specialize (IH ic1). destruct (exec ic1 cs) as [ic2 evs'].
    cbn [snd] in *. rewrite filter_app, length_app, H2, IH, H1.
    destruct (closeOnce ic), (is_CallClose c), (existsb is_CallClose cs);
      reflexivity.
Qed.

Lemma exec_bytesIn (cs : list call) :
  forall ic,
    error_ ic = None -> (0 <= bytesIn ic < 2 ^ 64)%Z ->
    bytesIn (fst (exec ic cs))
    = ((bytesIn ic + successful_read_bytes cs) mod 2 ^ 64)%Z.
Proof.
  induction cs as [|c cs IH]; intros ic He Hr; cbn [exec successful_read_bytes].
  - cbn [fst]. rewrite Z.add_0_r. symmetry. now apply Z.mod_small.
  - pose proof (step_error_nil ic c He) as He1.
    assert (Hb : bytesIn (fst (fst (step ic c))) =
                 match c with
                 | CallRead n None => uint64_add (bytesIn ic) n
                 | _ => bytesIn ic
                 end).
    { destruct c as [n [e|]|n [e|]|t cerr]; cbn [step].
      - unfold Read, record_error. now rewrite He.
      - reflexivity.
      - unfold Write, record_error. now rewrite He.
      - reflexivity.
      - unfold Close, close. destruct (closeOnce ic); [reflexivity|].
        now rewrite He. }
    destruct (step ic c) as [[ic1 evs] r]. cbn [fst] in He1, Hb.
    specialize (IH ic1 He1).
    destruct (exec ic1 cs) as [ic2 evs']. cbn [fst] in *.
    destruct c as [n [e|]|n err|t cerr]; rewrite Hb in IH;
      try (now apply IH).
    rewrite IH by (unfold uint64_add; apply Z.mod_pos_bound; lia).
    unfold uint64_add. rewrite Z.add_mod_idemp_l by lia.
    f_equal. lia.
Qed.

(** X8. After any sequence of calls on a new connection, the bytes-in
    counter holds the byte counts of the reads that returned no error, added
    up modulo 2^64; writes and closes do not touch it. *)
Theorem bytesIn_counts_successful_reads (remote : string) (now : Z)
        (cs : list call) :
  bytesIn (fst (exec (NewInstrumentedConn remote now) cs))
  = (successful_read_bytes cs mod 2 ^ 64)%Z.
Proof.
  rewrite exec_bytesIn; [reflexivity | reflexivity | cbn; lia].
Qed.

End connmetric_calls_facts.

(** ** The accept loop *)
Module proxy_serve_facts.
Import proxy proxy_serve.

Lemma int64_small (z : Z) : (0 <= z < 2 ^ 63)%Z -> int64 z = z.
Proof.
  intros H. unfold int64. rewrite Z.mod_small; lia.
Qed.

Lemma next_delay_ok (delay : Z) :
  delay_ok delay ->
  (5 * Millisecond <= next_delay delay <= Second)%Z.
Proof.
  unfold delay_ok, next_delay, Second, Millisecond.
  intros [-> | H].
  - cbn. lia.
  - assert (E : (delay =? 0)%Z = false) by (apply Z.eqb_neq; lia).
    rewrite E, int64_small by lia.
    destruct (delay * 2 >? 1000000000)%Z eqn:G; lia.
Qed.

Lemma Serve_for_sleeps (script : list (bool * accept_result)) :
  forall delay, delay_ok delay ->
    Forall (fun d => 5 * Millisecond <= d <= Second)%Z
           (sleeps (fst (Serve_for delay script))).
Proof.
  induction script as [|[closing a] script IH]; intros delay Hd; cbn [Serve_for].
  - constructor.
  - destruct closing; [constructor|].
    destruct a as [tcp|err [|]].
    + specialize (IH 0%Z (or_introl eq_refl)).
      destruct (Serve_for 0 script) as [evs out]. cbn [fst] in *.
      now destruct tcp.
    + pose proof (next_delay_ok Hd) as Hn.
      specialize (IH (next_delay delay) (or_intror Hn)).
      destruct (Serve_for (next_delay delay) script) as [evs out].
      cbn [fst sleeps] in *. now constructor.
    + constructor.
Qed.

Lemma sleeps_app (a b : list serve_event) :
  sleeps (a ++ b) = sleeps a ++ sleeps b.
Proof.
  induction a as [|e a IH]; [reflexivity|].
  destruct e; cbn; now rewrite IH.
Qed.

(** X9. Whatever the listener answers, every pause of the accept loop
    after a temporary error lasts between 5 milliseconds and one second. *)
Theorem Serve_backoff_bounded (script : list (bool * accept_result)) :
  Forall (fun d => 5 * Millisecond <= d <= Second)%Z
         (sleeps (fst (Serve script))).
Proof.
  unfold Serve.
  pose proof (@Serve_for_sleeps script 0%Z (or_introl eq_refl)) as H.
  destruct (Serve_for 0 script) as [evs [r|]]; cbn [fst] in *; [|assumption].
  rewrite sleeps_app. cbn. now rewrite app_nil_r.
Qed.

Lemma next_delay_backoff (i : nat) :
  next_delay (backoff i) = backoff (S i).
Proof.
  unfold backoff, next_delay, Second, Millisecond.
  rewrite Nat2Z.inj_succ, Z.pow_succ_r by lia.
  assert (Hp : (0 < 2 ^ Z.of_nat i)%Z) by (apply Z.pow_pos_nonneg; lia).
  set (x := (2 ^ Z.of_nat i)%Z) in *.
  destruct (Z.min_spec (5 * 1000000 * x) 1000000000) as [[Hlt ->]|[Hge ->]].
  - assert (E : (5 * 1000000 * x =? 0)%Z = false) by (apply Z.eqb_neq; lia).
    rewrite E, int64_small by lia.
    destruct (5 * 1000000 * x * 2 >? 1000000000)%Z eqn:G; lia.
  - change (1000000000 =? 0)%Z with false. cbv iota.
    rewrite int64_small by lia.
    change (1000000000 * 2 >? 1000000000)%Z with true. cbv iota. lia.
Qed.

Lemma Serve_for_temporary (err : error) (k : nat) :
  forall i,
    Serve_for (backoff i) (temporary_errors err k) =
    (map (fun j => Sleep (backoff j)) (seq (S i) k), Blocked).
Proof.
  induction k as [|k IH]; intros i; [reflexivity|].
  cbn [temporary_errors repeat Serve_for]. rewrite next_delay_backoff.
  fold (temporary_errors err k). now rewrite IH.
Qed.

(** X10. While the listener keeps failing with temporary errors, the
    accept loop does not return and pauses 5ms, 10ms, 20ms, ... before each
    retry, the pause doubling up to one second and staying there. *)
Theorem Serve_backoff_doubles (err : error) (k : nat) :
  Serve (temporary_errors err k) =
  (map (fun j => Sleep (Z.min (5 * Millisecond * 2 ^ Z.of_nat j) Second))
       (seq 0 k), Blocked).
Proof.
  unfold Serve. destruct k as [|k]; [reflexivity|].
  cbn [temporary_errors repeat Serve_for]. fold (temporary_errors err k).
  change (next_delay 0) with (backoff 0).
  now rewrite Serve_for_temporary.
Qed.

Lemma Serve_for_returns (script : list (bool * accept_result)) :
  forall delay,
    match snd (Serve_for delay script) with
    | Returned (Some err) => In (false, AcceptFailed err false) script
    | Returned None => exists a, In (true, a) script
    | Blocked =>
        Forall (fun x => fst x = false /\
                         forall err, snd x <> AcceptFailed err false) script /\
        length (filter is_Go_handleLoop (fst (Serve_for delay script))) =
        length (filter is_Accepted script)
    end.
Proof.
  induction script as [|[closing a] script IH]; intros delay; cbn [Serve_for].
  - cbn. now split.
  - destruct closing; [cbn; exists a; now left|].
    destruct a as [tcp|err [|]].
    + specialize (IH 0%Z). destruct (Serve_for 0 script) as [evs [[e|]|]];
        cbn [fst snd] in *.
      * now right.
      * destruct IH as [a Ha]. exists a. now right.
      * destruct IH as [Hf Hl]. split.
        -- constructor; [split; [reflexivity | discriminate] | assumption].
        -- rewrite filter_app, length_app. cbn. rewrite Hl.
           now destruct tcp.
    + specialize (IH (next_delay delay)).
      destruct (Serve_for (next_delay delay) script) as [evs [[e|]|]];
        cbn [fst snd] in *.
      * now right.
      * destruct IH as [a Ha]. exists a. now right.
      * destruct IH as [Hf Hl]. split.
        -- constructor; [split; [reflexivity | discriminate] | assumption].
        -- exact Hl.
    + cbn. now left.
Qed.

(** X11. The accept loop returns an error only if [Accept] failed with
    that error and the error was not temporary, and returns nil only if it
    saw the proxy closing. As long as neither happens it keeps accepting:
    temporary errors are not surfaced, and one handler is started for each
    accepted connection. *)
Theorem Serve_returns (script : list (bool * accept_result)) :
  match snd (Serve script) with
  | Returned (Some err) => In (false, AcceptFailed err false) script
  | Returned None => exists a, In (true, a) script
  | Blocked =>
      Forall (fun x => fst x = false /\
                       forall err, snd x <> AcceptFailed err false) script /\
      length (filter is_Go_handleLoop (fst (Serve script))) =
      length (filter is_Accepted script)
  end.
Proof.
  unfold Serve. pose proof (Serve_for_returns script 0%Z) as H.
  destruct (Serve_for 0 script) as [evs [[e|]|]]; exact H.
Qed.

End proxy_serve_facts.

(** ** One exchange, and the loop around it *)
Module proxy_exchange_facts.
Import proxy proxy_serve proxy_exchange proxy_facts.

(** *** Traces *)

Lemma written_app (a b : list event) : written (a ++ b) = written a ++ written b.
Proof.
  induction a as [|e a IH]; [reflexivity|]. destruct e; cbn; now rewrite IH.
Qed.


Lemma modified_responses_app (a b : list event) :
  modified_responses (a ++ b) = modified_responses a ++ modified_responses b.
Proof.
  induction a as [|e a IH]; [reflexivity|]. destruct e; cbn; now rewrite IH.
Qed.


Lemma roundTrip_plain (p : Proxy) (ctx : Context) (req : Request.t) :
  written (fst (roundTrip p ctx req)) = [] /\
  modified_requests (fst (roundTrip p ctx req)) = [] /\
  modified_responses (fst (roundTrip p ctx req)) = [] /\
  filter is_Splice (fst (roundTrip p ctx req)) = [].
Proof. unfold roundTrip. now destruct (SkippingRoundTrip ctx). Qed.

Lemma reply_plain (p : Proxy) (conn : Conn) (env : Env)
      (req : Request.t) (res : Response.t) :
  modified_requests (fst (reply p conn env req res)) = [] /\
  modified_responses (fst (reply p conn env req res)) = [] /\
  filter is_RoundTrip (fst (reply p conn env req res)) = [].
Proof.
  unfold reply, handleUpgradeResponse, tunnel.
  destruct (close_requested env req res); cbn iota beta zeta;
    destruct conn as [| |b]; destruct (dump_error env);
    try (now repeat split);
    destruct (Response.StatusCode _ =? 101)%Z;
    try (destruct (Response.BodyReadWriteCloser _);
         destruct (write_error env); destruct (flush_error env);
         now repeat split);
    destruct (WriteTimeout p >? 0)%Z; now repeat split.
Qed.

(** *** The shape of an exchange that is not hijacked *)

Lemma Session_eta (s : Session) :
  hijacked s = false -> {| secure := secure s; hijacked := false |} = s.
Proof. destruct s as [sec h]. cbn. now intros ->. Qed.

Lemma handleRequest_shape (p : Proxy) (conn : Conn) (env : Env)
      (s : Session) (req : Request.t) :
  hijacked s = false ->
  mod_hijack (snd (reqmod p req)) = false ->
  mod_hijack (snd (resmod p (round_trip_response p req))) = false ->
  handleRequest p conn env s req =
  (s,
   ModifyRequest req ::
     fst (roundTrip p (context_after_reqmod p req) (forwarded_request p req))
     ++ ModifyResponse (round_trip_response p req) ::
     fst (reply p conn env (forwarded_request p req) (returned_response p req))
     ++ [ResponseBodyClose],
   snd (reply p conn env (forwarded_request p req) (returned_response p req))).
Proof.
  intros Hs Hq Hr.
  unfold returned_response, round_trip_response in *.
  unfold forwarded_request, context_after_reqmod in *.
  unfold handleRequest, after_modifier, hijack_events.
  destruct (reqmod p req) as [req1 [e1 h1 k1]].
  cbn [fst snd mod_error mod_hijack mod_skip_round_trip hijacked secure] in *.
  subst h1. rewrite Hs. cbn [orb app skipRoundTrip].
  match goal with |- context [roundTrip ?a ?b ?c] =>
    destruct (roundTrip a b c) as [evs2 rt] eqn:Ert end.
  cbn [fst snd] in *.
  match goal with |- context [resmod p ?r] =>
    destruct (resmod p r) as [res2 [e2 h2 k2]] eqn:Eres end.
  cbn [fst snd mod_error mod_hijack mod_skip_round_trip hijacked secure] in *.
  subst h2. cbn [orb].
  match goal with |- context [reply ?a ?b ?c ?d ?e] =>
    destruct (reply a b c d e) as [evs4 r] end.
  cbn [fst snd app]. rewrite (@Session_eta s Hs).
  reflexivity.
Qed.
(** X12. When neither modifier hijacks the session, the response is not a
    101 and the traffic-shaping dump does not fail, one exchange writes
    exactly one response to the client and flushes it, whatever errors the
    modifiers or the round trip returned; [handle] then ends with nil or
    with [errClose]. *)
Theorem handleRequest_writes_one_response (p : Proxy) (conn : Conn) (env : Env)
        (s : Session) (req : Request.t) :
  hijacked s = false ->
  mod_hijack (snd (reqmod p req)) = false ->
  mod_hijack (snd (resmod p (round_trip_response p req))) = false ->
  Response.StatusCode (returned_response p req) <> 101%Z ->
  (forall b, conn = ShapedConn b -> dump_error env = None) ->
  exists res',
    written (snd (fst (handleRequest p conn env s req))) = [res'] /\
    Response.StatusCode res' = Response.StatusCode (returned_response p req) /\
    In Flush (snd (fst (handleRequest p conn env s req))) /\
    (snd (handleRequest p conn env s req) = None \/
     snd (handleRequest p conn env s req) = Some errClose).
Proof.
  intros Hs Hq Hr Hcode Hdump.
  rewrite (@handleRequest_shape p conn env s req Hs Hq Hr). cbn [fst snd].
  destruct (@reply_eq p conn env (forwarded_request p req)
              (returned_response p req) Hcode Hdump) as (evd & Hevd & ->).
  cbn [fst snd].
  exists (if close_requested env (forwarded_request p req)
                             (returned_response p req)
          then set_Close (returned_response p req)
          else returned_response p req).
  split; [|split; [|split]].
  - cbn [written]. rewrite written_app, (proj1 (roundTrip_plain _ _ _)).
    cbn [app written]. rewrite !written_app, Hevd. reflexivity.
  - now destruct (close_requested _ _ _).
  - right. apply in_or_app. right. right. apply in_or_app. left.
    apply in_or_app. right. right. now left.
  - destruct (_ || _); [now right | now left].
Qed.

Lemma handleRequest_writes_one_response_witness :
  exists res',
    written (snd (fst (handleRequest (sample_proxy false false) PlainConn
                         sample_env {| secure := false; hijacked := false |}
                         sample_request))) = [res'] /\
    Response.StatusCode res' = 500%Z.
Proof.
  destruct (@handleRequest_writes_one_response (sample_proxy false false)
              PlainConn sample_env {| secure := false; hijacked := false |}
              sample_request eq_refl eq_refl eq_refl)
    as (res' & Hw & Hc & _).
  - intros H; discriminate H.
  - intros b H; discriminate H.
  - exists res'. split; [exact Hw | exact Hc].
Defined.

(** X13. When the round trip fails and no [ErrorResponse] hook is set, the
    response handed to the response modifier is a 502 for the forwarded
    request, carrying the error in its Warning header unless warnings are
    disabled. *)
Theorem round_trip_failure_gives_502 (p : Proxy) (conn : Conn) (env : Env)
        (s : Session) (req : Request.t) (err : error) :
  hijacked s = false ->
  mod_hijack (snd (reqmod p req)) = false ->
  mod_hijack (snd (resmod p (round_trip_response p req))) = false ->
  mod_skip_round_trip (snd (reqmod p req)) = false ->
  roundTripper p (forwarded_request p req) = inr err ->
  ErrorResponse p = None ->
  exists res,
    modified_responses (snd (fst (handleRequest p conn env s req))) = [res] /\
    Response.StatusCode res = 502%Z /\
    Response.Request res = Some (forwarded_request p req) /\
    Response.Warning res = (if WithoutWarning p then [] else [err]).
Proof.
  intros Hs Hq Hr Hskip Hrt Hhook.
  rewrite (@handleRequest_shape p conn env s req Hs Hq Hr). cbn [fst snd].
  exists (round_trip_response p req). split.
  - cbn [modified_responses].
    rewrite modified_responses_app,
      (proj1 (proj2 (proj2 (roundTrip_plain _ _ _)))).
    cbn [app modified_responses].
    rewrite modified_responses_app, (proj1 (proj2 (reply_plain _ _ _ _ _))).
    reflexivity.
  - unfold round_trip_response, roundTrip, context_after_reqmod,
      SkippingRoundTrip. cbn [skipRoundTrip]. rewrite Hskip. cbn [snd].
    rewrite Hrt. unfold errorResponse, warn_response, warning.
    rewrite Hhook. now destruct (WithoutWarning p).
Qed.

Lemma round_trip_failure_gives_502_witness :
  exists res,
    modified_responses
      (snd (fst (handleRequest (failing_proxy io_ErrUnexpectedEOF) PlainConn
                   sample_env {| secure := false; hijacked := false |}
                   sample_request))) = [res] /\
    Response.StatusCode res = 502%Z /\
    Response.Warning res = [io_ErrUnexpectedEOF].
Proof.
  destruct (@round_trip_failure_gives_502 (failing_proxy io_ErrUnexpectedEOF)
              PlainConn sample_env {| secure := false; hijacked := false |}
              sample_request io_ErrUnexpectedEOF
              eq_refl eq_refl eq_refl eq_refl eq_refl eq_refl)
    as (res & H1 & H2 & _ & H4).
  exists res. repeat split; assumption.
Defined.

(** X14. When the request modifier asks to skip the round trip, the
    exchange does not invoke the RoundTripper, and the response modifier
    receives the synthetic 200 response for the forwarded request. *)
Theorem skip_round_trip_in_exchange (p : Proxy) (conn : Conn) (env : Env)
        (s : Session) (req : Request.t) :
  hijacked s = false ->
  mod_hijack (snd (reqmod p req)) = false ->
  mod_hijack (snd (resmod p (round_trip_response p req))) = false ->
  mod_skip_round_trip (snd (reqmod p req)) = true ->
  filter is_RoundTrip (snd (fst (handleRequest p conn env s req))) = [] /\
  modified_responses (snd (fst (handleRequest p conn env s req)))
  = [NewResponse 200 (forwarded_request p req)].
Proof.
  intros Hs Hq Hr Hskip.
  rewrite (@handleRequest_shape p conn env s req Hs Hq Hr). cbn [fst snd].
  assert (Hrt : roundTrip p (context_after_reqmod p req) (forwarded_request p req)
                = ([], inl (NewResponse 200 (forwarded_request p req)))).
  { unfold roundTrip, context_after_reqmod, SkippingRoundTrip.
    cbn [skipRoundTrip]. now rewrite Hskip. }
  assert (Hres : round_trip_response p req
                 = NewResponse 200 (forwarded_request p req)).
  { unfold round_trip_response. now rewrite Hrt. }
  rewrite Hrt, Hres. cbn [fst app filter is_RoundTrip modified_responses].
  split.
  - rewrite filter_app, (proj2 (proj2 (reply_plain _ _ _ _ _))). reflexivity.
  - rewrite modified_responses_app, (proj1 (proj2 (reply_plain _ _ _ _ _))).
    reflexivity.
Qed.

Lemma skip_round_trip_in_exchange_witness :
  filter is_RoundTrip
    (snd (fst (handleRequest skipping_proxy PlainConn sample_env
                 {| secure := false; hijacked := false |} sample_request))) = [] /\
  modified_responses
    (snd (fst (handleRequest skipping_proxy PlainConn sample_env
                 {| secure := false; hijacked := false |} sample_request)))
  = [NewResponse 200 (forwarded_request skipping_proxy sample_request)].
Proof.
  exact (@skip_round_trip_in_exchange skipping_proxy PlainConn sample_env
           {| secure := false; hijacked := false |} sample_request
           eq_refl eq_refl eq_refl eq_refl).
Defined.

(** *** The request as the modifiers see it *)





(** *** The loop *)

Lemma handle_read_error (p : Proxy) (conn : Conn) (s : Session) (env : Env)
      (inner : option Exchange) (err : error) :
  snd (readRequest p env) = inr err ->
  handle p conn s (Exch env inner)
  = (s, fst (readRequest p env), Returned (Some err)).
Proof.
  intros H. cbn [handle]. destruct (readRequest p env) as [evs r].
  cbn [fst snd] in *. now subst r.
Qed.

Lemma handleLoop_closeable (p : Proxy) (conn : Conn) (env : Env)
      (inner : option Exchange) (rest : list Exchange) (err : error) :
  snd (readRequest p env) = inr err -> isCloseable err = true ->
  handleLoop p conn false (Exch env inner :: rest)
  = (fst (readRequest p env) ++ [ConnClose], true).
Proof.
  intros H Hc. unfold handleLoop. cbn [handleLoop_for].
  rewrite (@handle_read_error p conn _ env inner err H). now rewrite Hc.
Qed.

(** X16. When reading the request fails with a closeable error (EOF, a
    timeout, ...), the handler loop ends there: it half-closes the
    connection if the connection supports it, runs no modifier, writes
    nothing, closes the socket and ignores whatever the client sends
    later. *)
Theorem handleLoop_ends_on_closeable_read_error (p : Proxy) (conn : Conn)
        (env : Env) (inner : option Exchange) (rest : list Exchange)
        (err : error) :
  read env = inr err -> isCloseable err = true ->
  let r := handleLoop p conn false (Exch env inner :: rest) in
  r = handleLoop p conn false [Exch env inner] /\
  snd r = true /\
  (In CloseWrite (fst r) <-> close_writer env = true) /\
  modified_requests (fst r) = [] /\ written (fst r) = [] /\
  filter is_ConnClose (fst r) = [ConnClose].
Proof.
  intros Hread Hc.
  assert (H : snd (readRequest p env) = inr err)
    by (unfold readRequest; now rewrite Hread).
  cbv zeta. rewrite (@handleLoop_closeable p conn env inner rest err H Hc),
    (@handleLoop_closeable p conn env inner [] err H Hc).
  split; [reflexivity|]. split; [reflexivity|]. cbn [fst].
  unfold readRequest. rewrite Hread. cbn [fst].
  destruct (close_writer env), (option_Z_eqb _ _); cbn;
    repeat split; auto; try discriminate;
    intros H'; repeat (destruct H' as [H'|H']; try discriminate); contradiction.
Qed.

Lemma handleLoop_ends_on_closeable_read_error_witness :
  handleLoop (sample_proxy false false) PlainConn false
             [Exch (failing_read io_EOF) None; Exch sample_env None]
  = handleLoop (sample_proxy false false) PlainConn false
               [Exch (failing_read io_EOF) None].
Proof.
  exact (proj1 (@handleLoop_ends_on_closeable_read_error
                  (sample_proxy false false) PlainConn (failing_read io_EOF)
                  None [Exch sample_env None] io_EOF eq_refl eq_refl)).
Defined.

(** X17. Once the proxy is closing, a request that arrives on an open
    connection is read but not served: no modifier runs, nothing is sent
    on the round trip or written back, and the handler loop closes the
    connection. *)
Theorem handleLoop_stops_when_closing (p : Proxy) (conn : Conn) (env : Env)
        (inner : option Exchange) (rest : list Exchange) (req : Request.t) :
  read env = inl req -> closing_on_read env = true ->
  let r := handleLoop p conn false (Exch env inner :: rest) in
  snd r = true /\
  modified_requests (fst r) = [] /\ modified_responses (fst r) = [] /\
  filter is_RoundTrip (fst r) = [] /\ written (fst r) = [] /\
  filter is_ConnClose (fst r) = [ConnClose].
Proof.
  intros Hread Hcl.
  assert (H : snd (readRequest p env) = inr errClose)
    by (unfold readRequest; now rewrite Hread, Hcl).
  cbv zeta. rewrite (@handleLoop_closeable p conn env inner rest errClose H eq_refl).
  cbn [fst snd]. unfold readRequest. rewrite Hread. cbn [fst].
  destruct (option_Z_eqb _ _); now repeat split.
Qed.

Lemma handleLoop_stops_when_closing_witness :
  snd (handleLoop (sample_proxy false false) PlainConn false
                  [Exch closing_env None]) = true.
Proof.
  exact (proj1 (@handleLoop_stops_when_closing (sample_proxy false false)
                  PlainConn closing_env None [] sample_request
                  eq_refl eq_refl)).
Defined.

Lemma handle_bad_request (p : Proxy) (conn : Conn) (s : Session) (x : Exchange) :
  bad_request x ->
  exists err, handle p conn s x
              = (s, fst (readRequest p (env_of x)), Returned (Some err)) /\
              isCloseable err = false.
Proof.
  intros (err & Hread & Hc). exists err. split; [|assumption].
  destruct x as [env inner]. cbn [env_of] in *. apply handle_read_error.
  unfold readRequest. now rewrite Hread.
Qed.

Lemma handleLoop_for_bad_requests (p : Proxy) (conn : Conn) (s : Session)
      (xs : list Exchange) :
  hijacked s = false -> Forall bad_request xs ->
  forall errors rest,
    errors + length xs < maxConsecutiveErrors ->
    handleLoop_for p conn s errors (xs ++ rest) =
    let (evs, left) := handleLoop_for p conn s (errors + length xs) rest in
    (failed_reads p xs ++ evs, left).
Proof.
  intros Hs Hxs. induction Hxs as [|x xs Hx Hxs IH]; intros errors rest Hlt.
  - cbn [app length failed_reads flat_map]. rewrite Nat.add_0_r.
    now destruct (handleLoop_for p conn s errors rest).
  - cbn [app length handleLoop_for] in *.
    destruct (handle_bad_request p conn s Hx) as (err & -> & ->).
    destruct (maxConsecutiveErrors <=? S errors) eqn:E;
      [apply Nat.leb_le in E; lia|].
    rewrite Hs, (IH (S errors) rest) by lia.
    replace (S errors + length xs) with (errors + S (length xs)) by lia.
    destruct (handleLoop_for p conn s (errors + S (length xs)) rest).
    unfold failed_reads. cbn [flat_map]. now rewrite <- app_assoc.
Qed.

(** X18. Five requests in a row that cannot be read (with errors that are
    not closeable) make the handler loop give up: after the fifth it closes
    the connection and reads nothing more. Up to four such requests do not:
    the loop goes on waiting for the next request. *)
Theorem handleLoop_gives_up_after_five_errors (p : Proxy) (conn : Conn)
        (xs rest : list Exchange) :
  Forall bad_request xs ->
  (length xs = 5 ->
   handleLoop p conn false (xs ++ rest)
   = (failed_reads p xs ++ [ConnClose], true)) /\
  (length xs < 5 ->
   handleLoop p conn false xs = (failed_reads p xs, false)).
Proof.
  intros Hxs. unfold handleLoop. split; intros Hlen.
  - destruct (exists_last (l := xs)) as (ys & y & ->);
      [intros ->; discriminate|].
    apply Forall_app in Hxs as [Hys Hy]. inversion Hy as [|? ? Hy' _]; subst.
    rewrite length_app in Hlen. cbn [length] in Hlen.
    rewrite <- app_assoc. cbn [app].
    rewrite (@handleLoop_for_bad_requests p conn
               {| secure := false; hijacked := false |} ys eq_refl Hys 0
               (y :: rest))
      by (unfold maxConsecutiveErrors; lia).
    cbn [handleLoop_for Nat.add].
    destruct (handle_bad_request p conn {| secure := false; hijacked := false |}
                Hy') as (err & -> & ->).
    replace (maxConsecutiveErrors <=? S (length ys)) with true
      by (symmetry; apply Nat.leb_le; unfold maxConsecutiveErrors; lia).
    unfold failed_reads. rewrite flat_map_app. cbn [flat_map].
    now rewrite app_nil_r.
  - pose proof (@handleLoop_for_bad_requests p conn
                  {| secure := false; hijacked := false |} xs eq_refl Hxs 0 [])
      as H.
    rewrite app_nil_r in H. rewrite H by (unfold maxConsecutiveErrors; lia).
    cbn [handleLoop_for]. now rewrite app_nil_r.
Qed.

Lemma handleLoop_gives_up_after_five_errors_witness :
  let bad := Exch (failing_read (ErrorString "malformed HTTP request")) None in
  handleLoop (sample_proxy false false) PlainConn false
             ([bad; bad; bad; bad; bad] ++ [Exch sample_env None])
  = (failed_reads (sample_proxy false false) [bad; bad; bad; bad; bad]
       ++ [ConnClose], true).
Proof.
  cbv zeta.
  apply (@handleLoop_gives_up_after_five_errors (sample_proxy false false)
           PlainConn _ [Exch sample_env None]); [|reflexivity].
  repeat constructor;
    exists (ErrorString "malformed HTTP request"); now split.
Defined.

(** X19. Whether or not the header deadline had to be replaced, the read
    deadline in force when [readRequest] returns is the one of the whole
    request: [ReadTimeout] from the start of the read if it is positive,
    none otherwise. *)
Theorem readRequest_leaves_whole_request_deadline (p : Proxy) (env : Env) :
  read_deadline (fst (readRequest p env)) None
  = Some (if (ReadTimeout p >? 0)%Z then Some (ReadTimeout p) else None).
Proof.
  assert (Heq : forall a b, option_Z_eqb a b = true -> a = b).
  { intros [x|] [y|]; cbn; try discriminate; [|reflexivity].
    intros H. apply Z.eqb_eq in H. now subst. }
  unfold readRequest. fold (deadline (ReadTimeout p)).
  destruct (option_Z_eqb (deadline (readHeaderTimeout p)) (deadline (ReadTimeout p)))
    eqn:E.
  - apply Heq in E. rewrite E.
    destruct (read env), (close_writer env); reflexivity.
  - destruct (read env), (close_writer env); reflexivity.
Qed.

(** *** CONNECT without interception *)

(** X20. A CONNECT whose dial fails (no interception, no passthrough, no
    [ErrorResponse] hook, modifiers that neither hijack nor change the
    status) is answered with a 502: the response modifier sees the 502
    with the dial error in its Warning header (unless warnings are
    disabled), the 502 is written to the client, no tunnel is spliced, and
    [handle] returns the result of the flush. *)
Theorem CONNECT_dial_failure_gives_502 (p : Proxy) (conn : Conn) (env : Env)
        (s : Session) (req : Request.t)
        (nested : Conn -> Session -> Session * list event * outcome)
        (err : error) (cconn : bool) :
  hijacked s = false ->
  mitm p = false -> ConnectPassthrough p = false -> ErrorResponse p = None ->
  connect_result env = ConnectFailed err cconn ->
  mod_hijack (snd (reqmod p req)) = false ->
  (forall r, mod_hijack (snd (resmod p r)) = false) ->
  (forall r, Response.StatusCode (fst (resmod p r)) = Response.StatusCode r) ->
  let r := handleConnectRequest p conn env s req nested in
  (exists res, modified_responses (snd (fst r)) = [res] /\
               Response.StatusCode res = 502%Z /\
               Response.Warning res = if WithoutWarning p then [] else [err]) /\
  (exists res', written (snd (fst r)) = [res'] /\
                Response.StatusCode res' = 502%Z) /\
  filter is_Splice (snd (fst r)) = [] /\
  snd r = Returned (flush_error env).
Proof.
  intros Hs Hmitm Hpass Hhook Hconn Hq Hr Hcode. cbv zeta.
  unfold handleConnectRequest, after_modifier, hijack_events.
  destruct (reqmod p req) as [req1 [e1 h1 k1]].
  cbn [fst snd mod_error mod_hijack mod_skip_round_trip hijacked secure] in *.
  subst h1. rewrite Hs, Hmitm, Hpass, Hconn. cbn [orb].
  match goal with |- context [resmod p ?x] =>
    pose proof (Hr x) as Hr'; pose proof (Hcode x) as Hcode';
    destruct (resmod p x) as [res2 [e2 h2 k2]] end.
  cbn [fst snd mod_error mod_hijack mod_skip_round_trip hijacked secure] in *.
  subst h2. cbn [orb].
  assert (H502 : Response.StatusCode (warn_response p res2 e2) = 502%Z).
  { replace (Response.StatusCode (warn_response p res2 e2))
      with (Response.StatusCode res2) by now destruct e2.
    rewrite Hcode'. unfold errorResponse. now rewrite Hhook. }
  replace (Response.StatusCode (warn_response p res2 e2) =? 200)%Z with false
    by now rewrite H502.
  cbn [negb fst snd]. split; [|split; [|split]].
  - eexists. split; [destruct cconn; reflexivity|].
    unfold errorResponse, warn_response, warning. rewrite Hhook.
    now destruct (WithoutWarning p).
  - exists (warn_response p res2 e2). split; [|assumption].
    destruct cconn; reflexivity.
  - destruct cconn; reflexivity.
  - reflexivity.
Qed.

Lemma CONNECT_dial_failure_gives_502_witness :
  exists res',
    written (snd (fst (handleConnectRequest (sample_proxy false false) PlainConn
                         sample_env {| secure := false; hijacked := false |}
                         connect_request
                         (fun _ s' => (s', [], Blocked))))) = [res'] /\
    Response.StatusCode res' = 502%Z.
Proof.
  exact (proj1 (proj2 (@CONNECT_dial_failure_gives_502
           (sample_proxy false false) PlainConn sample_env
           {| secure := false; hijacked := false |} connect_request
           (fun _ s' => (s', [], Blocked)) (ErrorString "unreachable") false
           eq_refl eq_refl eq_refl eq_refl eq_refl eq_refl
           (fun _ => eq_refl) (fun _ => eq_refl)))).
Defined.

(** X21. A CONNECT whose dial succeeds with a 200 (no interception, no
    passthrough, modifiers that neither hijack nor change the status)
    writes that 200 with an unknown content length, splices the tunnel if
    the write and the flush succeed, closes the upstream connection on the
    way out, and always returns [errClose]: the connection does not serve
    another request after a tunnel. *)
Theorem CONNECT_tunnel_ends_connection (p : Proxy) (conn : Conn) (env : Env)
        (s : Session) (req : Request.t)
        (nested : Conn -> Session -> Session * list event * outcome)
        (res : Response.t) (cconn : bool) :
  hijacked s = false ->
  mitm p = false -> ConnectPassthrough p = false ->
  connect_result env = Connected res cconn ->
  Response.StatusCode res = 200%Z ->
  mod_hijack (snd (reqmod p req)) = false ->
  (forall r, mod_hijack (snd (resmod p r)) = false) ->
  (forall r, Response.StatusCode (fst (resmod p r)) = Response.StatusCode r) ->
  let r := handleConnectRequest p conn env s req nested in
  snd r = Returned (Some errClose) /\
  (exists res', written (snd (fst r)) = [res'] /\
                Response.StatusCode res' = 200%Z /\
                Response.ContentLength res' = (-1)%Z) /\
  (write_error env = None -> flush_error env = None ->
   filter is_Splice (snd (fst r)) = [Splice "CONNECT"]) /\
  (cconn = true -> In UpstreamClose (snd (fst r))).
Proof.
  intros Hs Hmitm Hpass Hconn H200 Hq Hr Hcode. cbv zeta.
  unfold handleConnectRequest, after_modifier, hijack_events.
  destruct (reqmod p req) as [req1 [e1 h1 k1]].
  cbn [fst snd mod_error mod_hijack mod_skip_round_trip hijacked secure] in *.
  subst h1. rewrite Hs, Hmitm, Hpass, Hconn. cbn [orb].
  pose proof (Hr res) as Hr'. pose proof (Hcode res) as Hcode'.
  destruct (resmod p res) as [res2 [e2 h2 k2]].
  cbn [fst snd mod_error mod_hijack mod_skip_round_trip hijacked secure] in *.
  subst h2. cbn [orb].
  assert (Hc : Response.StatusCode (warn_response p res2 e2) = 200%Z).
  { replace (Response.StatusCode (warn_response p res2 e2))
      with (Response.StatusCode res2) by now destruct e2.
    congruence. }
  replace (Response.StatusCode (warn_response p res2 e2) =? 200)%Z with true
    by now rewrite Hc.
  cbn [negb fst snd]. split; [reflexivity|]. split; [|split].
  - exists (set_ContentLength (warn_response p res2 e2) (-1)).
    split; [|split; [exact Hc | reflexivity]].
    unfold tunnel. destruct (write_error env), (flush_error env), cconn;
      reflexivity.
  - intros Hw Hf. unfold tunnel. rewrite Hw, Hf. now destruct cconn.
  - intros ->. unfold tunnel.
    destruct (write_error env), (flush_error env); cbn; auto 10.
Qed.

Lemma CONNECT_tunnel_ends_connection_witness :
  snd (handleConnectRequest (sample_proxy false false) PlainConn tunnel_env
         {| secure := false; hijacked := false |} connect_request
         (fun _ s' => (s', [], Blocked)))
  = Returned (Some errClose).
Proof.
  exact (proj1 (@CONNECT_tunnel_ends_connection
           (sample_proxy false false) PlainConn tunnel_env
           {| secure := false; hijacked := false |} connect_request
           (fun _ s' => (s', [], Blocked))
           (NewResponse 200 connect_request) true
           eq_refl eq_refl eq_refl eq_refl eq_refl eq_refl
           (fun _ => eq_refl) (fun _ => eq_refl))).
Defined.

(** *** What every call of the engine keeps *)

Lemma no_close_app (a b : list event) :
  filter is_ConnClose a = [] -> filter is_ConnClose b = [] ->
  filter is_ConnClose (a ++ b) = [].
Proof. intros Ha Hb. now rewrite filter_app, Ha, Hb. Qed.

Lemma readRequest_no_close (p : Proxy) (env : Env) :
  filter is_ConnClose (fst (readRequest p env)) = [].
Proof.
  unfold readRequest.
  destruct (read env), (close_writer env), (option_Z_eqb _ _); reflexivity.
Qed.

Lemma roundTrip_no_close (p : Proxy) (ctx : Context) (req : Request.t) :
  filter is_ConnClose (fst (roundTrip p ctx req)) = [].
Proof. unfold roundTrip. now destruct (SkippingRoundTrip ctx). Qed.

Lemma tunnel_no_close (env : Env) (name : string) (res : Response.t) :
  filter is_ConnClose (tunnel env name res) = [].
Proof. unfold tunnel. now destruct (write_error env), (flush_error env). Qed.

Lemma reply_no_close (p : Proxy) (conn : Conn) (env : Env)
      (req : Request.t) (res : Response.t) :
  filter is_ConnClose (fst (reply p conn env req res)) = [].
Proof.
  unfold reply, handleUpgradeResponse.
  destruct (close_requested env req res); cbn iota beta zeta;
    destruct conn as [| |b]; destruct (dump_error env);
    try reflexivity;
    destruct (Response.StatusCode _ =? 101)%Z;
    try (destruct (Response.BodyReadWriteCloser _);
         [apply tunnel_no_close | reflexivity]);
    destruct (WriteTimeout p >? 0)%Z; reflexivity.
Qed.

Lemma handleRequest_keeps (p : Proxy) (conn : Conn) (env : Env)
      (s : Session) (req : Request.t) :
  secure (fst (fst (handleRequest p conn env s req))) = secure s /\
  filter is_ConnClose (snd (fst (handleRequest p conn env s req))) = [].
Proof.
  unfold handleRequest, after_modifier, hijack_events.
  destruct (reqmod p req) as [req1 [e1 h1 k1]].
  cbn [mod_error mod_hijack mod_skip_round_trip hijacked secure].
  destruct (hijacked s || h1) eqn:Eh; [now destruct h1|].
  apply orb_false_iff in Eh as [_ ->]. cbn [app].
  match goal with |- context [roundTrip ?a ?b ?c] =>
    pose proof (roundTrip_no_close a b c) as Hq;
    destruct (roundTrip a b c) as [evs2 rt] end.
  cbn [fst] in Hq.
  match goal with |- context [resmod p ?r] =>
    destruct (resmod p r) as [res2 [e2 h2 k2]] end.
  cbn [mod_error mod_hijack mod_skip_round_trip hijacked secure orb].
  destruct h2; cbn [fst snd].
  - split; [reflexivity|]. cbn [app filter is_ConnClose].
    rewrite filter_app, Hq. reflexivity.
  - match goal with |- context [reply ?a ?b ?c ?d ?e] =>
      pose proof (reply_no_close a b c d e) as Hr;
      destruct (reply a b c d e) as [evs4 r] end.
    cbn [fst snd] in *. split; [reflexivity|].
    cbn [app filter is_ConnClose]. rewrite filter_app, Hq.
    cbn [app filter is_ConnClose]. now rewrite filter_app, Hr.
Qed.

(** The end of [handleConnectRequest] without interception, for [keeps]. *)
Ltac connect_keeps p :=
  match goal with
  | |- context [resmod p ?r] =>
      let h2 := fresh "h2" in
      destruct (resmod p r) as [? [? h2 ?]];
      cbn [mod_error mod_hijack mod_skip_round_trip hijacked secure orb];
      destruct h2; [|destruct (negb _)];
      (split; [intros Hsec; exact Hsec|]);
      cbn [fst snd app filter is_ConnClose];
      try (rewrite filter_app;
           match goal with H : filter is_ConnClose _ = [] |- _ => rewrite H end);
      cbn [fst snd app filter is_ConnClose];
      try (rewrite filter_app, tunnel_no_close);
      reflexivity
  end.

Lemma handleConnectRequest_keeps (p : Proxy) (conn : Conn) (env : Env)
      (s : Session) (req : Request.t)
      (nested : Conn -> Session -> Session * list event * outcome) :
  (forall conn' s', keeps s' (nested conn' s')) ->
  keeps s (handleConnectRequest p conn env s req nested).
Proof.
  intros Hnested. unfold keeps, handleConnectRequest, after_modifier, hijack_events.
  destruct (reqmod p req) as [req1 [e1 h1 k1]].
  cbn [mod_error mod_hijack mod_skip_round_trip hijacked secure].
  destruct (hijacked s || h1) eqn:Eh.
  { cbn [fst snd]. split; [auto | now destruct h1]. }
  apply orb_false_iff in Eh as [_ ->]. cbn [app].
  destruct (mitm p).
  - match goal with |- context [resmod p ?r] =>
      destruct (resmod p r) as [res2 [e2 h2 k2]] end.
    cbn [mod_error mod_hijack mod_skip_round_trip hijacked secure orb].
    destruct h2; [cbn; now split|].
    destruct (peeked env =? 22)%Z.
    + destruct (handshake_error env) as [herr|]; [cbn; now split|].
      destruct (negotiated_h2 env); [cbn; now split|].
      match goal with |- context [nested ?c ?t] =>
        pose proof (Hnested c t) as [Hn1 Hn2];
        destruct (nested c t) as [[s3 evs4] out] end.
      cbn [fst snd secure] in *. split; [exact Hn1 | exact Hn2].
    + match goal with |- context [nested ?c ?t] =>
        pose proof (Hnested c t) as [Hn1 Hn2];
        destruct (nested c t) as [[s3 evs4] out] end.
      cbn [fst snd secure] in *. split; [exact Hn1 | exact Hn2].
  - destruct (ConnectPassthrough p).
    + match goal with |- context [roundTrip ?a ?b ?c] =>
        pose proof (roundTrip_no_close a b c) as Hq;
        destruct (roundTrip a b c) as [evs rt] end.
      cbn [fst] in Hq. destruct rt; connect_keeps p.
    + destruct (connect_result env) as [r [|]|r [|]]; connect_keeps p.
Qed.

Lemma handle_keeps (p : Proxy) (x : Exchange) :
  forall conn s, keeps s (handle p conn s x).
Proof.
  induction x as [env|env x IH] using Exchange_nested_ind; intros conn s;
    unfold keeps; cbn [handle];
    pose proof (readRequest_no_close p env) as Hq;
    destruct (readRequest p env) as [evs0 [req0|err]]; cbn [fst snd] in *.
  all: try (split; [auto | assumption]).
  all: set (s0 := match conn with
                  | TLSConn | ShapedConn true => MarkSecure s
                  | _ => s
                  end);
    assert (Hs0 : secure s = true -> secure s0 = true)
      by (subst s0; destruct conn as [| |[|]]; auto);
    clearbody s0;
    destruct (String.eqb _ "CONNECT").
  - match goal with |- context [handleConnectRequest ?a ?b ?c ?d ?e ?f] =>
      destruct (@handleConnectRequest_keeps a b c d e f) as [H1 H2];
      [intros conn' s'; unfold keeps; now split|];
      destruct (handleConnectRequest a b c d e f) as [[s1 evs1] out] end.
    cbn [fst snd] in *.
    destruct out; cbn [fst snd]; (split; [auto|]);
      repeat apply no_close_app; auto.
  - destruct (handleRequest_keeps p conn env s0
                (fix_scheme p s0 (prepare_request conn env req0))) as [H1 H2].
    destruct (handleRequest _ _ _ _ _) as [[s1 evs1] err].
    cbn [fst snd] in *. split; [intros H; rewrite H1; auto|].
    repeat apply no_close_app; auto.
  - match goal with |- context [handleConnectRequest ?a ?b ?c ?d ?e ?f] =>
      destruct (@handleConnectRequest_keeps a b c d e f) as [H1 H2];
      [intros conn' s'; apply IH|];
      destruct (handleConnectRequest a b c d e f) as [[s1 evs1] out] end.
    cbn [fst snd] in *.
    destruct out; cbn [fst snd]; (split; [auto|]);
      repeat apply no_close_app; auto.
  - destruct (handleRequest_keeps p conn env s0
                (fix_scheme p s0 (prepare_request conn env req0))) as [H1 H2].
    destruct (handleRequest _ _ _ _ _) as [[s1 evs1] err].
    cbn [fst snd] in *. split; [intros H; rewrite H1; auto|].
    repeat apply no_close_app; auto.
Qed.

Lemma handleLoop_for_no_close (p : Proxy) (conn : Conn) (script : list Exchange) :
  forall s errors,
    filter is_ConnClose (fst (handleLoop_for p conn s errors script)) = [].
Proof.
  induction script as [|x script IH]; intros s errors; cbn [handleLoop_for].
  - reflexivity.
  - destruct (handle_keeps p x conn s) as [_ Hh].
    destruct (handle p conn s x) as [[s1 evs] out]. cbn [fst snd] in Hh.
    destruct out as [[err|]|]; cbv zeta; cbn [fst].
    + destruct (isCloseable err); [assumption|].
      destruct (maxConsecutiveErrors <=? S errors); [assumption|].
      destruct (hijacked s1); [assumption|].
      specialize (IH s1 (S errors)).
      destruct (handleLoop_for p conn s1 (S errors) script).
      cbn [fst] in *. now apply no_close_app.
    + destruct (hijacked s1); [assumption|].
      specialize (IH s1 0).
      destruct (handleLoop_for p conn s1 0 script).
      cbn [fst] in *. now apply no_close_app.
    + assumption.
Qed.

(** X22. Whatever the requests on a connection and whatever path they
    take, the handler closes the client socket exactly once, as its last
    action, if it returns, and does not close it while it is still
    serving. *)
Theorem handleLoop_closes_socket_once (p : Proxy) (conn : Conn)
        (closing : bool) (script : list Exchange) :
  let r := handleLoop p conn closing script in
  filter is_ConnClose (fst r) = (if snd r then [ConnClose] else []) /\
  (snd r = true -> exists evs, fst r = evs ++ [ConnClose]).
Proof.
  cbv zeta. unfold handleLoop. destruct closing.
  { split; [reflexivity | intros _; now exists []]. }
  pose proof (handleLoop_for_no_close p conn script
                {| secure := false; hijacked := false |} 0) as H.
  destruct (handleLoop_for p conn _ 0 script) as [evs left].
  cbn [fst snd] in *. destruct left; cbn [fst snd].
  - split; [now rewrite filter_app, H | intros _; now exists evs].
  - split; [assumption | discriminate].
Qed.

(** X23. A CONNECT that is intercepted (TLS record peeked, handshake
    done, not HTTP/2, no modifier hijacking) marks the session secure as
    soon as a request is read from the decrypted stream, and the session
    stays secure through everything the handler does afterwards. *)
Theorem intercepted_session_is_secure (p : Proxy) (conn : Conn) (s : Session)
        (env env' : Env) (inner' : option Exchange) (req req' : Request.t) :
  hijacked s = false ->
  read env = inl req -> closing_on_read env = false ->
  String.eqb (Request.Method req) "CONNECT" = true ->
  mitm p = true -> peeked env = 22%Z ->
  handshake_error env = None -> negotiated_h2 env = false ->
  (forall r, mod_hijack (snd (reqmod p r)) = false) ->
  (forall r, mod_hijack (snd (resmod p r)) = false) ->
  read env' = inl req' -> closing_on_read env' = false ->
  secure (fst (fst (handle p conn s (Exch env (Some (Exch env' inner'))))))
  = true.
Proof.
  intros Hs Hread Hcl Hm Hmitm Hpeek Hhs Hh2 Hq Hr Hread' Hcl'.
  remember (Exch env' inner') as x' eqn:Ex'. cbn [handle].
  assert (H0 : snd (readRequest p env) = inl req)
    by (unfold readRequest; now rewrite Hread, Hcl).
  assert (H0' : snd (readRequest p env') = inl req')
    by (unfold readRequest; now rewrite Hread', Hcl').
  destruct (readRequest p env) as [evs0 r0]. cbn [snd] in H0. subst r0.
  replace (Request.Method (prepare_request conn env req))
    with (Request.Method req) by reflexivity.
  rewrite Hm.
  set (s0 := match conn with
             | TLSConn | ShapedConn true => MarkSecure s
             | _ => s
             end).
  assert (Hs0 : hijacked s0 = false)
    by (subst s0; destruct conn as [| |[|]]; assumption).
  clearbody s0.
  unfold handleConnectRequest, after_modifier, hijack_events.
  pose proof (Hq (prepare_request conn env req)) as Hq'.
  destruct (reqmod p (prepare_request conn env req)) as [req1 [e1 h1 k1]].
  cbn [fst snd mod_error mod_hijack mod_skip_round_trip hijacked secure] in *.
  subst h1. rewrite Hs0, Hmitm. cbn [orb].
  match goal with |- context [resmod p ?x] =>
    pose proof (Hr x) as Hr'; destruct (resmod p x) as [res2 [e2 h2 k2]] end.
  cbn [fst snd mod_error mod_hijack mod_skip_round_trip hijacked secure] in *.
  subst h2. cbn [orb]. rewrite Hpeek, Hhs, Hh2. cbn [Z.eqb Pos.eqb].
  cbv beta iota.
  (* the call of [handle] on the decrypted stream *)
  match goal with |- context [handle p ?c ?t x'] =>
    assert (Hin : secure (fst (fst (handle p c t x'))) = true);
    [| destruct (handle p c t x') as [[s3 evs4] out];
       cbn [fst snd] in *; now destruct out ]
  end.
  subst x'. cbn [handle]. destruct (readRequest p env') as [evs0' r0'].
  cbn [snd] in H0'. subst r0'.
  assert (Htls : is_tls (mitm_conn conn) = true) by now destruct conn.
  match goal with |- context [MarkSecure ?t] =>
    set (s1 := match mitm_conn conn with
               | TLSConn | ShapedConn true => MarkSecure t
               | _ => t
               end);
    assert (Hs1 : secure s1 = true)
      by (subst s1; destruct conn as [| |[|]]; reflexivity);
    clearbody s1
  end.
  destruct (String.eqb (Request.Method
                          (prepare_request (mitm_conn conn) env' req'))
                       "CONNECT").
  - match goal with |- context [handleConnectRequest ?a ?b ?c ?d ?e ?f] =>
      destruct (@handleConnectRequest_keeps a b c d e f) as [H1 _];
      [intros conn' s'; destruct inner' as [x'|];
       [apply handle_keeps | unfold keeps; now split]|];
      destruct (handleConnectRequest a b c d e f) as [[s2 evs2] out] end.
    cbn [fst snd] in *. destruct out; cbn [fst]; auto.
  - match goal with |- context [handleRequest ?a ?b ?c ?d ?e] =>
      destruct (handleRequest_keeps a b c d e) as [H1 _];
      destruct (handleRequest a b c d e) as [[s2 evs2] err] end.
    cbn [fst snd] in *. congruence.
Qed.

Lemma intercepted_session_is_secure_witness :
  secure (fst (fst (handle mitm_proxy PlainConn
                      {| secure := false; hijacked := false |}
                      (Exch mitm_env (Some (Exch sample_env None))))))
  = true.
Proof.
  exact (@intercepted_session_is_secure mitm_proxy PlainConn
           {| secure := false; hijacked := false |} mitm_env sample_env None
           connect_request sample_request
           eq_refl eq_refl eq_refl eq_refl eq_refl eq_refl eq_refl eq_refl
           (fun _ => eq_refl) (fun _ => eq_refl) eq_refl eq_refl).
Defined.

End proxy_exchange_facts.

(** ** The logging modifier *)
Module martianlog_facts.
Import martianlog.

Lemma append_assoc (a b c : string) :
  ((a ++ b) ++ c)%string = (a ++ (b ++ c))%string.
Proof. induction a as [|x a IH]; cbn; [reflexivity | now rewrite IH]. Qed.

Lemma logEnd_ends (b : string) : logEnd b = (b ++ block_end)%string.
Proof.
  unfold logEnd, Fprintln, block_end. cbn [append].
  now rewrite !append_assoc.
Qed.

(** X24. In error-only mode a request is never logged, and a response is
    logged exactly when its status code is 400 or above; a message whose
    context is skipping logging is never logged, in any mode, and in all
    these silent cases the modifier returns nil. *)
Theorem Logger_silent_cases (l : Logger) :
  (forall req, req_SkippingLogging req = true ->
               ModifyRequest l req = ([], None)) /\
  (forall res, req_SkippingLogging (res_Request res) = true ->
               ModifyResponse l res = ([], None)) /\
  (mode l = ErrOnlyLogMode ->
   (forall req, ModifyRequest l req = ([], None)) /\
   (forall res, req_SkippingLogging (res_Request res) = false ->
                (fst (ModifyResponse l res) = [] <-> (StatusCode res < 400)%Z) /\
                ((StatusCode res < 400)%Z -> snd (ModifyResponse l res) = None))).
Proof.
  split; [|split; [|intros Hm; split]].
  - intros req H. unfold ModifyRequest. now rewrite H.
  - intros res H. unfold ModifyResponse. now rewrite H.
  - intros req. unfold ModifyRequest. rewrite Hm.
    now destruct (req_SkippingLogging req).
  - intros res Hs. unfold ModifyResponse. rewrite Hs, Hm.
    change (String.eqb ErrOnlyLogMode ErrOnlyLogMode) with true.
    change (String.eqb ErrOnlyLogMode UrlLogMode) with false.
    change (String.eqb ErrOnlyLogMode BodyLogMode) with false.
    cbn [andb negb].
    destruct (StatusCode res <? 400)%Z eqn:E.
    + apply Z.ltb_lt in E. cbn. repeat split; auto.
    + apply Z.ltb_ge in E.
      replace (StatusCode res >=? 400)%Z with true
        by (symmetry; apply Z.geb_le; lia).
      unfold logMessage.
      destruct (req_view _ _ _) as [t|e]; cbn [fst snd].
      * destruct (RoundTripDuration res), (res_view _ _ _);
          cbn [fst snd];
          (split; [split; [discriminate | intros; lia] | intros; lia]).
      * split; [split; [discriminate | intros; lia] | intros; lia].
Qed.

(** X25. Each call logs at most one block, and a block always ends with
    the blank line and the rule that close it, also when taking the
    snapshot of the message failed; unless the mode is "url" or the message
    is not logged, the error returned by [ModifyRequest] is exactly the
    error of the snapshot, which skips the body unless the mode is
    "body". *)
Theorem Logger_blocks (l : Logger) :
  (forall req,
      (length (fst (ModifyRequest l req)) <= 1)%nat /\
      Forall (fun b => exists b0, b = (b0 ++ block_end)%string)
             (fst (ModifyRequest l req))) /\
  (forall res,
      (length (fst (ModifyResponse l res)) <= 1)%nat /\
      Forall (fun b => exists b0, b = (b0 ++ block_end)%string)
             (fst (ModifyResponse l res))) /\
  (forall req,
      req_SkippingLogging req = false ->
      mode l <> ErrOnlyLogMode -> mode l <> UrlLogMode ->
      length (fst (ModifyRequest l req)) = 1%nat /\
      snd (ModifyRequest l req) =
      match req_view req (negb (String.eqb (mode l) BodyLogMode)) (decode l) with
      | inl _ => None
      | inr err => Some err
      end).
Proof.
  assert (Hb : forall b, Forall (fun b => exists b0, b = (b0 ++ block_end)%string)
                                [logEnd b]).
  { intros b. constructor; [|constructor]. exists b. apply logEnd_ends. }
  split; [|split].
  - intros req. unfold ModifyRequest, logMessage.
    destruct (req_SkippingLogging req); [split; [cbn; lia | constructor]|].
    destruct (String.eqb (mode l) ErrOnlyLogMode); [split; [cbn; lia | constructor]|].
    destruct (String.eqb (mode l) UrlLogMode); [split; [cbn; lia | apply Hb]|].
    destruct (req_view _ _ _); cbn [fst]; (split; [cbn; lia | apply Hb]).
  - intros res. unfold ModifyResponse, logMessage.
    destruct (req_SkippingLogging _); [split; [cbn; lia | constructor]|].
    destruct (String.eqb (mode l) ErrOnlyLogMode && (StatusCode res <? 400)%Z);
      [split; [cbn; lia | constructor]|].
    destruct (String.eqb (mode l) ErrOnlyLogMode && (StatusCode res >=? 400)%Z);
      [destruct (req_view _ _ _)|];
      try (cbn [fst]; split; [cbn; lia | apply Hb]);
      destruct (String.eqb (mode l) UrlLogMode);
      try (cbn [fst]; split; [cbn; lia | apply Hb]);
      destruct (res_view _ _ _); cbn [fst]; (split; [cbn; lia | apply Hb]).
  - intros req Hs He Hu. unfold ModifyRequest, logMessage. rewrite Hs.
    apply String.eqb_neq in He, Hu. rewrite He, Hu.
    now destruct (req_view _ _ _).
Qed.

Lemma Logger_blocks_witness :
  snd (ModifyRequest NewLogger
         {| req_URL := "http://example.com/"; req_SkippingLogging := false;
            req_view := fun _ _ => inr io_ErrUnexpectedEOF |})
  = Some io_ErrUnexpectedEOF.
Proof.
  destruct (proj2 (proj2 (Logger_blocks NewLogger))
              {| req_URL := "http://example.com/"; req_SkippingLogging := false;
                 req_view := fun _ _ => inr io_ErrUnexpectedEOF |}
              eq_refl) as [_ H].
  - intros H; discriminate H.
  - intros H; discriminate H.
  - exact H.
Defined.

Lemma Logger_silent_cases_witness :
  fst (ModifyResponse (SetMode NewLogger ErrOnlyLogMode)
         {| res_Request := {| req_URL := "http://example.com/";
                              req_SkippingLogging := false;
                              req_view := fun _ _ => inl "GET / HTTP/1.1"%string |};
            Status := "200 OK"; StatusCode := 200; RoundTripDuration := None;
            res_view := fun _ _ => inl "HTTP/1.1 200 OK"%string |}) = [].
Proof.
  destruct (proj2 (proj2 (Logger_silent_cases (SetMode NewLogger ErrOnlyLogMode)))
              eq_refl) as [_ H].
  match goal with |- fst (ModifyResponse _ ?r) = _ =>
    destruct (H r eq_refl) as [[_ H'] _] end.
  apply H'. reflexivity.
Defined.

End martianlog_facts.

(** ** The levelled logger *)
Module log_facts.
Import log.

Section LoggerFacts.
Variable Arg : Type.
Variable Sprintf : string -> list Arg -> string.

(** X26. At level Silent nothing is printed; at the default level Error
    only [Errorf] prints. What a function prints at one level it prints
    unchanged at every higher level, and whenever [Debugf] prints so does
    [Infof], and whenever [Infof] prints so does [Errorf]. *)
Theorem log_levels (format : string) (args : list Arg) :
  (Errorf Sprintf Silent format args = [] /\
   Infof Sprintf Silent format args = [] /\
   Debugf Sprintf Silent format args = []) /\
  (Infof Sprintf Error format args = [] /\
   Debugf Sprintf Error format args = [] /\
   length (Errorf Sprintf Error format args) = 1%nat) /\
  (forall level level' : Z, (level <= level')%Z ->
     (Errorf Sprintf level format args = [] \/
      Errorf Sprintf level' format args = Errorf Sprintf level format args) /\
     (Infof Sprintf level format args = [] \/
      Infof Sprintf level' format args = Infof Sprintf level format args) /\
     (Debugf Sprintf level format args = [] \/
      Debugf Sprintf level' format args = Debugf Sprintf level format args)) /\
  (forall level : Z,
     (Debugf Sprintf level format args <> [] ->
      Infof Sprintf level format args <> []) /\
     (Infof Sprintf level format args <> [] ->
      Errorf Sprintf level format args <> [])).
Proof.
  unfold Errorf, Infof, Debugf, logf, Silent, Error, Info, Debug.
  split; [now repeat split|]. split; [now repeat split|]. split.
  - intros level level' Hle.
    repeat split;
      match goal with |- context [(level <? ?t)%Z] =>
        destruct (level <? t)%Z eqn:E; [now left | right];
        apply Z.ltb_ge in E;
        replace (level' <? t)%Z with false
          by (symmetry; apply Z.ltb_ge; lia);
        reflexivity
      end.
  - intros level. split.
    + destruct (level <? 3)%Z eqn:E3; [intros H; now elim H|].
      apply Z.ltb_ge in E3.
      replace (level <? 2)%Z with false by (symmetry; apply Z.ltb_ge; lia).
      discriminate.
    + destruct (level <? 2)%Z eqn:E2; [intros H; now elim H|].
      apply Z.ltb_ge in E2.
      replace (level <? 1)%Z with false by (symmetry; apply Z.ltb_ge; lia).
      discriminate.
Qed.
End LoggerFacts.

End log_facts.
